(** * Role-based access control: ancestor closure, batching, permission queries

    A shallow embedding of [awx/main/models/rbac.py].  The relational store is
    modelled by its tables: the role table is a list of rows (in the order the
    store returns them), each many-to-many field is its join table, a finite
    set of pairs, and the permission table is a list of rows.  The
    thread-local storage and an execution log are carried next to the store. *)

From stdpp Require Import base gmap sets list fin_sets relations strings.
From Stdlib Require Import ZArith.

Open Scope Z_scope.
Set Warnings "-clear-no-such-hyp".

Module Rbac.

(** ** Data model *)

(** A row of [main_rbac_roles]; [content_type]/[object_id] are nullable. *)
Record Role := mkRole {
  role_id : Z;
  role_content_type : option Z;
  role_object_id : option Z
}.

(** A row of [main_rbac_permissions]; the eight flags are non-null integers. *)
Record RolePermission := mkPerm {
  perm_role : Z;
  perm_content_type : Z;
  perm_object_id : Z;
  auto_generated : bool;
  p_create : Z;
  p_read : Z;
  p_write : Z;
  p_delete : Z;
  p_update : Z;
  p_execute : Z;
  p_scm_update : Z;
  p_use : Z
}.

(** The store.  [parents] holds [(r, p)] when [p] is in [r.parents];
    [ancestors] holds [(r, a)] when [a] is in [r.ancestors];
    [members] holds [(r, u)] when user [u] is in [r.members]. *)
Record DB := mkDB {
  roles : list Role;
  parents : gset (Z * Z);
  ancestors : gset (Z * Z);
  members : gset (Z * Z);
  permissions : list RolePermission
}.

(** [tls]: both attributes may be missing. *)
Record TLS := mkTLS {
  batch_role_rebuilding : option bool;
  roles_needing_rebuilding : option (gset Z)
}.

(** What a call of [rebuild_role_ancestor_list] did, for the log. *)
Inductive event :=
  | Deferred (r : Z)   (* batch mode: the id was queued *)
  | Recomputed (r : Z) (* the ancestor set was recomputed and compared *)
  | Stored (r : Z).    (* the ancestor rows of [r] were rewritten *)

Global Instance event_eq_dec : EqDecision event :=
  ltac:(solve_decision).

Record State := mkState {
  tls : TLS;
  db : DB;
  log : list event
}.

Inductive exn :=
  | RecursionDepth   (* the call stack (fuel) is exhausted *)
  | AttributeError   (* [getattr] without default on a missing attribute *)
  | BodyError.       (* an exception raised by the body of a [with] block *)

Inductive result (A : Type) :=
  | Ok (a : A)
  | Raise (e : exn).
Arguments Ok {A} a.
Arguments Raise {A} e.

Definition bind {A B} (m : result A) (k : A → result B) : result B :=
  match m with
  | Ok a => k a
  | Raise e => Raise e
  end.

(** [for x in l: f(x)] with the state threaded through. *)
Fixpoint for_each {S} (f : Z → S → result S) (l : list Z) (s : S) : result S :=
  match l with
  | [] => Ok s
  | x :: l' => bind (f x s) (for_each f l')
  end.

(** ** Relational helpers *)

(** The right-hand sides related to [x] in a join table. *)
Definition related (T : gset (Z * Z)) (x : Z) : gset Z :=
  set_map snd (filter (λ e : Z * Z, e.1 = x) T).

Definition role_ids (d : DB) : list Z := role_id <$> roles d.

(** [self.children.all()]: the roles that list [r] among their parents. *)
Definition children (d : DB) (r : Z) : list Z :=
  filter (λ c, (c, r) ∈ parents d) (role_ids d).

(** [self.ancestors.all().values_list('id', flat=True)] as a set. *)
Definition stored_ancestors (d : DB) (r : Z) : gset Z := related (ancestors d) r.

(** [values_list('parents__ancestors__id')] joined over the parents of [r],
    with [r] added and [None] dropped. *)
Definition actual_ancestors (d : DB) (r : Z) : gset Z :=
  set_bind (related (ancestors d)) (related (parents d) r) ∪ {[ r ]}.

Definition set_ancestors (d : DB) (A : gset (Z * Z)) : DB :=
  mkDB (roles d) (parents d) A (members d) (permissions d).

Definition set_parents (d : DB) (P : gset (Z * Z)) : DB :=
  mkDB (roles d) P (ancestors d) (members d) (permissions d).

(** The two loops [self.ancestors.add(id)] and [self.ancestors.remove(id)]. *)
Definition update_ancestors (d : DB) (r : Z) (actual stored : gset Z) : DB :=
  set_ancestors d
    ((ancestors d ∪ set_map (pair r) (actual ∖ stored))
       ∖ set_map (pair r) (stored ∖ actual)).

Definition getattr_flag (t : TLS) : bool := default false (batch_role_rebuilding t).

Definition emit (e : event) (s : State) : State :=
  mkState (tls s) (db s) (log s ++ [e]).

Definition with_db (s : State) (d : DB) : State := mkState (tls s) d (log s).

Definition with_tls (s : State) (t : TLS) : State := mkState t (db s) (log s).

(** ** Closure engine *)

(** [Role.rebuild_role_ancestor_list]; [fuel] bounds the depth of the
    recursion through the children. *)
Fixpoint rebuild_role_ancestor_list (fuel : nat) (self : Z) (s : State) : result State :=
  match fuel with
  | O => Raise RecursionDepth
  | S n =>
    if getattr_flag (tls s) then
      match roles_needing_rebuilding (tls s) with
      | None => Raise AttributeError
      | Some q =>
        Ok (emit (Deferred self)
              (with_tls s (mkTLS (batch_role_rebuilding (tls s)) (Some (q ∪ {[ self ]})))))
      end
    else
      let actual := actual_ancestors (db s) self in
      let stored := stored_ancestors (db s) self in
      let s0 := emit (Recomputed self) s in
      if decide (actual ≠ stored) then
        let s1 := emit (Stored self)
                    (with_db s0 (update_ancestors (db s) self actual stored)) in
        for_each (rebuild_role_ancestor_list n) (children (db s1) self) s1
      else Ok s0
  end.

(** The invariant I1 at one role: the stored set is the recomputed one. *)
Definition consistent_at (d : DB) (r : Z) : Prop :=
  stored_ancestors d r = actual_ancestors d r.

Definition consistent (d : DB) : Prop :=
  ∀ r, r ∈ role_ids d → consistent_at d r.

(** A run of [for_each] seen as a chain of single steps. *)
Inductive steps {S} (Q : Z → S → S → Prop) : list Z → S → S → Prop :=
  | steps_nil s : steps Q [] s s
  | steps_cons x l s1 s2 s3 :
      Q x s1 s2 → steps Q l s2 s3 → steps Q (x :: l) s1 s3.

(** What [rebuild_role_ancestor_list] leaves alone outside batch mode. *)
Definition same_frame (s s' : State) : Prop :=
  tls s' = tls s ∧ roles (db s') = roles (db s) ∧ parents (db s') = parents (db s)
  ∧ members (db s') = members (db s) ∧ permissions (db s') = permissions (db s).

(** The state right after the ancestor rows of [self] were rewritten. *)
Definition after_store (self : Z) (s : State) : State :=
  emit (Stored self)
    (with_db (emit (Recomputed self) s)
       (update_ancestors (db s) self (actual_ancestors (db s) self)
          (stored_ancestors (db s) self))).

(** ** Predicates on runs *)

Abbreviation updated d r :=
  (update_ancestors d r (actual_ancestors d r) (stored_ancestors d r)).

Definition fixes (self : Z) (s s' : State) : Prop :=
  ∀ x, x ∈ role_ids (db s) → x = self ∨ consistent_at (db s) x →
       consistent_at (db s') x.

(** ** Acyclic graphs *)

(** [parent_of d c p]: [p] is a direct parent of [c]. *)
Definition parent_of (d : DB) (c p : Z) : Prop := (c, p) ∈ parents d.

(** No role is its own proper ancestor. *)
Definition acyclic (d : DB) : Prop := ∀ r, ¬ tc (parent_of d) r r.

(** A ranking that decreases along every parent edge; it can be checked by
    evaluation and it implies acyclicity. *)
Definition ranked (d : DB) (rank : Z → nat) : Prop :=
  set_Forall (λ e : Z * Z, (rank e.2 < rank e.1)%nat) (parents d).

Global Instance ranked_dec d rank : Decision (ranked d rank) :=
  ltac:(unfold ranked; apply _).

(** Settle a decidable closed proposition by evaluation. *)
Ltac by_eval := refine (bool_decide_unpack _ _); vm_compute; exact I.

(** ** Logs and frames *)

Definition logs (self : Z) (s s' : State) : Prop :=
  ∃ l, log s' = log s ++ Recomputed self :: l
     ∧ (actual_ancestors (db s) self = stored_ancestors (db s) self →
          l = [] ∧ db s' = db s)
     ∧ (actual_ancestors (db s) self ≠ stored_ancestors (db s) self →
          Stored self ∈ l ∧ ∀ c, c ∈ children (db s) self → Recomputed c ∈ l).

(** [x] is [r] or one of its descendants. *)
Definition below (d : DB) (x r : Z) : Prop := rtc (parent_of d) x r.

Definition touches_below (self : Z) (s s' : State) : Prop :=
  ∀ x, ¬ below (db s) x self →
       stored_ancestors (db s') x = stored_ancestors (db s) x.

(** ** Closures *)

(** The parents of [r] as a set. *)
Definition direct_parents (d : DB) (r : Z) : gset Z := related (parents d) r.

(** The stored set of [r] is the reflexive-transitive closure of the parent
    relation at [r], computed independently of the stored rows. *)
Definition closure_at (d : DB) (r : Z) : Prop :=
  ∀ a, a ∈ stored_ancestors d r ↔ rtc (parent_of d) r a.

(** The events a run appended to the log. *)
Definition appended (s s' : State) (k : list event) : Prop := log s' = log s ++ k.

(** ** Batch coordinator *)

(** A block of statements: the state it leaves and the exception, if any,
    that escapes it. *)
Definition block := State → State * option exn.

(** [with transaction.atomic(): ...]: the writes of a failed block are
    rolled back and the exception goes on. *)
Definition atomic (f : State → result State) (s : State) : State * option exn :=
  match f s with
  | Ok s' => (s', None)
  | Raise e => (s, Some e)
  end.

(** [Role.objects.filter(id__in=list(rebuild_set)).all()], as ids. *)
Definition refetch (d : DB) (rebuild_set : gset Z) : list Z :=
  filter (λ r, r ∈ rebuild_set) (role_ids d).

(** The part of [batch_role_ancestor_rebuilding] before [yield]; the saved
    flag is the local variable [batch_role_rebuilding]. *)
Definition batch_enter (s : State) : bool * State :=
  let saved := getattr_flag (tls s) in
  let queue := if saved then roles_needing_rebuilding (tls s) else Some ∅ in
  (saved, with_tls s (mkTLS (Some true) queue)).

(** [setattr(tls, 'batch_role_rebuilding', batch_role_rebuilding)]. *)
Definition flag_restored (saved : bool) (s : State) : State :=
  with_tls s (mkTLS (Some saved) (roles_needing_rebuilding (tls s))).

(** The [finally] clause. *)
Definition batch_exit (fuel : nat) (saved : bool) (s : State) : State * option exn :=
  let s1 := flag_restored saved s in
  if saved then (s1, None)
  else
    match roles_needing_rebuilding (tls s1) with
    | None => (s1, Some AttributeError)
    | Some rebuild_set =>
      match atomic (for_each (rebuild_role_ancestor_list fuel)
                      (refetch (db s1) rebuild_set)) s1 with
      | (s2, None) =>
          (with_tls s2 (mkTLS (batch_role_rebuilding (tls s2)) None), None)
      | (s2, Some e) => (s2, Some e)
      end
    end.

(** [with batch_role_ancestor_rebuilding(): body]. An exception of the
    [finally] clause replaces the one of the body. *)
Definition batch_role_ancestor_rebuilding (fuel : nat) (body : block) (s : State)
  : State * option exn :=
  let '(saved, s0) := batch_enter s in
  let '(s1, raised) := body s0 in
  let '(s2, raised') := batch_exit fuel saved s1 in
  (s2, match raised' with Some e => Some e | None => raised end).

(** ** Permission resolver *)

(** The second argument of [get_user_permissions_on_resource]: an instance of
    [User], or an instance of another model, known by its content type. *)
Inductive principal :=
  | UserP (id : Z)
  | OtherP (content_type : Z) (id : Z).

(** A governed object: [ContentType.objects.get_for_model(resource).id] and
    [resource.id]. *)
Record Resource := mkResource {
  res_content_type : Z;
  res_id : Z
}.

(** The dict returned by [aggregate]: [None] is SQL NULL. *)
Record Aggregate := mkAggregate {
  a_create : option Z;
  a_read : option Z;
  a_write : option Z;
  a_update : option Z;
  a_delete : option Z;
  a_scm_update : option Z;
  a_execute : option Z;
  a_use : option Z
}.

(** [Max(col)] over the rows of a query: NULL on no rows. *)
Definition Max (col : RolePermission → Z) (rows : list RolePermission) : option Z :=
  foldr (λ p acc, Some (match acc with
                        | None => col p
                        | Some m => Z.max (col p) m
                        end)) None rows.

Definition aggregate (rows : list RolePermission) : Aggregate :=
  {| a_create := Max p_create rows;
     a_read := Max p_read rows;
     a_write := Max p_write rows;
     a_update := Max p_update rows;
     a_delete := Max p_delete rows;
     a_scm_update := Max p_scm_update rows;
     a_execute := Max p_execute rows;
     a_use := Max p_use rows |}.

Definition on_resource (resource : Resource) (p : RolePermission) : Prop :=
  perm_content_type p = res_content_type resource ∧ perm_object_id p = res_id resource.

Global Instance on_resource_dec resource p : Decision (on_resource resource p) :=
  ltac:(unfold on_resource; apply _).

(** [user.roles.all()], or the roles bound to the accessor object. *)
Definition accessor_roles (d : DB) (user : principal) : list Z :=
  match user with
  | UserP uid => filter (λ r, (r, uid) ∈ members d) (role_ids d)
  | OtherP ct oid =>
      role_id <$> filter (λ r, role_content_type r = Some ct
                               ∧ role_object_id r = Some oid) (roles d)
  end.

(** The rows of [filter(content_type=..., object_id=..., role__ancestors__in=roles)]:
    one row for each ancestor row of the grant's role that lands in [roles]. *)
Definition user_rows (d : DB) (resource : Resource) (rs : list Z) : list RolePermission :=
  p ← filter (on_resource resource) (permissions d);
  a ← elements (stored_ancestors d (perm_role p));
  if decide (a ∈ rs) then [p] else [].

(** The rows of [filter(content_type=..., object_id=..., role__ancestors=role)]. *)
Definition role_rows (d : DB) (resource : Resource) (role : Z) : list RolePermission :=
  filter (λ p, on_resource resource p ∧ (perm_role p, role) ∈ ancestors d)
         (permissions d).

(** The tail shared by the two queries. *)
Definition none_if_no_read (res : Aggregate) : option Aggregate :=
  match a_read res with
  | None => None
  | Some _ => Some res
  end.

Definition get_user_permissions_on_resource (d : DB) (resource : Resource)
    (user : principal) : option Aggregate :=
  let roles := accessor_roles d user in
  let qs := user_rows d resource roles in
  none_if_no_read (aggregate qs).

Definition get_role_permissions_on_resource (d : DB) (resource : Resource)
    (role : Z) : option Aggregate :=
  let qs := role_rows d resource role in
  none_if_no_read (aggregate qs).

(** [m] is the largest value of [col] over the rows picked by [sel]. *)
Definition max_over (sel : RolePermission → Prop) (col : RolePermission → Z) (m : Z) : Prop :=
  (∃ p, sel p ∧ col p = m) ∧ ∀ p, sel p → col p ≤ m.

(** Every field of the record holds the maximum of its flag over [sel]. *)
Definition flags_max_over (sel : RolePermission → Prop) (res : Aggregate) : Prop :=
  (∃ m, a_create res = Some m ∧ max_over sel p_create m)
  ∧ (∃ m, a_read res = Some m ∧ max_over sel p_read m)
  ∧ (∃ m, a_write res = Some m ∧ max_over sel p_write m)
  ∧ (∃ m, a_update res = Some m ∧ max_over sel p_update m)
  ∧ (∃ m, a_delete res = Some m ∧ max_over sel p_delete m)
  ∧ (∃ m, a_scm_update res = Some m ∧ max_over sel p_scm_update m)
  ∧ (∃ m, a_execute res = Some m ∧ max_over sel p_execute m)
  ∧ (∃ m, a_use res = Some m ∧ max_over sel p_use m).

(** The grants the user query selects: those on the resource whose role has a
    directly-held role among its stored ancestors. *)
Definition user_selected (d : DB) (resource : Resource) (user : principal)
    (p : RolePermission) : Prop :=
  p ∈ permissions d ∧ on_resource resource p
  ∧ ∃ h, h ∈ accessor_roles d user ∧ h ∈ stored_ancestors d (perm_role p).

(** The grants the role query selects: those on the resource whose role has
    [role] among its stored ancestors. *)
Definition role_selected (d : DB) (resource : Resource) (role : Z)
    (p : RolePermission) : Prop :=
  p ∈ permissions d ∧ on_resource resource p
  ∧ role ∈ stored_ancestors d (perm_role p).

(** The selection as the specification words it: the grant's role is an
    ancestor of, or equal to, a directly-held role (resp. the given role). *)
Definition spec_user_rows (d : DB) (resource : Resource) (rs : list Z)
  : list RolePermission :=
  filter (λ p, on_resource resource p
               ∧ Exists (λ h, perm_role p = h ∨ perm_role p ∈ stored_ancestors d h) rs)
         (permissions d).

Definition spec_permissionsOf (d : DB) (resource : Resource) (user : principal)
  : option Aggregate :=
  none_if_no_read (aggregate (spec_user_rows d resource (accessor_roles d user))).

Definition spec_permissionsOfRole (d : DB) (resource : Resource) (role : Z)
  : option Aggregate :=
  none_if_no_read (aggregate (spec_user_rows d resource [role])).

(** Every field of the record is present. *)
Definition full_record (res : Aggregate) : Prop :=
  is_Some (a_create res) ∧ is_Some (a_read res) ∧ is_Some (a_write res)
  ∧ is_Some (a_update res) ∧ is_Some (a_delete res) ∧ is_Some (a_scm_update res)
  ∧ is_Some (a_execute res) ∧ is_Some (a_use res).

(** ** Edge mutations *)

(** Modelled from the spec: the two edge mutations of the Role Store,
    [addParent(role, parent)] and [removeParent(role, parent)]; the code that
    changes the parent rows is not in the source file. *)
Inductive mutation :=
  | AddParent (role parent : Z)
  | RemoveParent (role parent : Z).

Global Instance mutation_eq_dec : EqDecision mutation :=
  ltac:(solve_decision).

Definition mutated_role (m : mutation) : Z :=
  match m with AddParent r _ | RemoveParent r _ => r end.

Definition edge_of (m : mutation) : Z * Z :=
  match m with AddParent r p | RemoveParent r p => (r, p) end.

(** Modelled from the spec: the edge mutations of the Role Store are not in
    the source file; [addParent(role, parent)] and [removeParent(role, parent)]
    "mutate the edge set, then invoke closure maintenance for [role]
    (directly or via Batch Coordinator)". *)
Definition apply_edge (m : mutation) (d : DB) : DB :=
  match m with
  | AddParent r p => set_parents d (parents d ∪ {[ (r, p) ]})
  | RemoveParent r p => set_parents d (parents d ∖ {[ (r, p) ]})
  end.

(** Modelled from the spec: a mutation changes the edge set and then invokes
    closure maintenance for [role]; the call is the one of the source, which
    rebuilds at once or, inside a batch, queues the role. *)
Definition mutate (fuel : nat) (m : mutation) (s : State) : result State :=
  rebuild_role_ancestor_list fuel (mutated_role m) (with_db s (apply_edge m (db s))).

(** A sequence of mutations, one after the other. *)
Fixpoint run_mutations (fuel : nat) (ms : list mutation) (s : State) : result State :=
  match ms with
  | [] => Ok s
  | m :: ms' => bind (mutate fuel m s) (run_mutations fuel ms')
  end.

(** The edge table after a sequence of mutations. *)
Definition apply_edges (ms : list mutation) (d : DB) : DB := foldl (flip apply_edge) d ms.

(** Statements run as the body of a [with] block. *)
Definition run_block (f : State → result State) : block :=
  λ s, match f s with
       | Ok s' => (s', None)
       | Raise e => (s, Some e)
       end.

(** The graph is acyclic before the sequence and after each of its steps. *)
Fixpoint acyclic_along (ms : list mutation) (d : DB) : Prop :=
  acyclic d ∧
  match ms with
  | [] => True
  | m :: ms' => acyclic_along ms' (apply_edge m d)
  end.

(** Both ends of every mutated edge are roles of the store. *)
Definition valid_mutation (d : DB) (m : mutation) : Prop :=
  (edge_of m).1 ∈ role_ids d ∧ (edge_of m).2 ∈ role_ids d.

Global Instance valid_mutation_dec d m : Decision (valid_mutation d m) :=
  ltac:(unfold valid_mutation; apply _).

(** Referential integrity of the parent table. *)
Definition parents_in_roles (d : DB) : Prop :=
  set_Forall (λ e : Z * Z, e.1 ∈ role_ids d ∧ e.2 ∈ role_ids d) (parents d).

Global Instance parents_in_roles_dec d : Decision (parents_in_roles d) :=
  ltac:(unfold parents_in_roles; apply _).

Global Instance consistent_at_dec d r : Decision (consistent_at d r) :=
  ltac:(unfold consistent_at; apply _).

(** The invariant I1 over the whole role table, in a form that evaluates. *)
Definition all_consistent (d : DB) : Prop := Forall (consistent_at d) (role_ids d).

Global Instance all_consistent_dec d : Decision (all_consistent d) :=
  ltac:(unfold all_consistent; apply _).

(** Two orders of application agree on every edge: the mutations of one edge
    come in the same order in both. *)
Definition same_order_on (e : Z * Z) (ms ms' : list mutation) : Prop :=
  filter (λ m, edge_of m = e) ms = filter (λ m, edge_of m = e) ms'.

Definition respects_causality (ms ms' : list mutation) : Prop :=
  Forall (λ m, same_order_on (edge_of m) ms ms') (ms ++ ms').

Global Instance respects_causality_dec ms ms' : Decision (respects_causality ms ms') :=
  ltac:(unfold respects_causality, same_order_on; apply _).

(** [res'] grants at least what [res] grants; the absence value is below
    every record. *)
Definition flag_le (a b : option Z) : Prop :=
  match a, b with
  | Some x, Some y => x ≤ y
  | None, _ => True
  | Some _, None => False
  end.

Definition perm_le (res res' : option Aggregate) : Prop :=
  match res, res' with
  | None, _ => True
  | Some _, None => False
  | Some a, Some b =>
      flag_le (a_create a) (a_create b) ∧ flag_le (a_read a) (a_read b)
      ∧ flag_le (a_write a) (a_write b) ∧ flag_le (a_update a) (a_update b)
      ∧ flag_le (a_delete a) (a_delete b) ∧ flag_le (a_scm_update a) (a_scm_update b)
      ∧ flag_le (a_execute a) (a_execute b) ∧ flag_le (a_use a) (a_use b)
  end.

(** ** Rows outside the role table *)

Definition outside_roles (self : Z) (s s' : State) : Prop :=
  ∀ x, x ≠ self → x ∉ role_ids (db s) →
       stored_ancestors (db s') x = stored_ancestors (db s) x.

(** ** Presence of an edge after a run *)

(** Whether an edge is present after the mutations [ops] of that edge. *)
Fixpoint present_after (ops : list mutation) (init : Prop) : Prop :=
  match ops with
  | [] => init
  | AddParent _ _ :: ops' => present_after ops' True
  | RemoveParent _ _ :: ops' => present_after ops' False
  end.

(** ** Sample stores *)

Definition plain_role (i : Z) : Role := mkRole i None None.

Definition no_tls : TLS := mkTLS None None.

(** [org] (1) has no parents, [team] (2) has parent [org], [project-admin]
    (3) has parent [team]; the rows of [team] are stale. *)
Definition d_chain : DB :=
  mkDB [plain_role 1; plain_role 2; plain_role 3]
       {[ (2, 1); (3, 2) ]}
       {[ (1, 1); (2, 2); (3, 3); (3, 2) ]}
       ∅ [].

Definition s_chain : State := mkState no_tls d_chain [].

Definition rank_down (z : Z) : nat := Z.to_nat z.

Definition rank_up (z : Z) : nat := Z.to_nat (10 - z).

Definition s_chain_rebuilt : State :=
  match rebuild_role_ancestor_list 4 2 s_chain with
  | Ok s => s
  | Raise _ => s_chain
  end.

(** The same store inside a batch that has queued role 3. *)
Definition s_batch : State := mkState (mkTLS (Some true) (Some {[ 3 ]})) d_chain [].

(** A body that asks for a rebuild of the stale role 2 and ends normally, and
    the state it leaves when run as the body of a scope opened on [s_chain]. *)
Definition deferring_body : block := run_block (rebuild_role_ancestor_list 1 2).


(** A body that touches role 2 and then fails. *)
Definition failing_body : block :=
  λ s, match rebuild_role_ancestor_list 1 2 s with
       | Ok s' => (s', Some BodyError)
       | Raise e => (s, Some e)
       end.

Definition s_after_failure : State := (failing_body (batch_enter s_chain).2).1.

(** Three unrelated roles, consistent. *)
Definition d_flat : DB :=
  mkDB [plain_role 1; plain_role 2; plain_role 3]
       ∅ {[ (1, 1); (2, 2); (3, 3) ]} ∅ [].

Definition s_flat : State := mkState no_tls d_flat [].

(** Two roles that are each other's parent, nothing stored yet. *)
Definition d_cycle : DB :=
  mkDB [plain_role 1; plain_role 2] {[ (1, 2); (2, 1) ]} ∅ ∅ [].

Definition s_cycle : State := mkState no_tls d_cycle [].

Definition resource_x : Resource := mkResource 7 1.
Definition resource_y : Resource := mkResource 7 2.

Definition grant (role : Z) (resource : Resource) (c r w dl u : Z) : RolePermission :=
  mkPerm role (res_content_type resource) (res_id resource) false c r w dl u 0 0 0.

(** The scenario of the specification: [project-admin] holds create, read,
    update and delete on X, [alice] (user 50) is a member of it; [org] holds
    read on Y; role 4 stands apart. *)
Definition d_org : DB :=
  mkDB [plain_role 1; plain_role 2; plain_role 3; plain_role 4]
       {[ (2, 1); (3, 2) ]}
       {[ (1, 1); (2, 2); (2, 1); (3, 3); (3, 2); (3, 1); (4, 4) ]}
       {[ (3, 50) ]}
       [grant 3 resource_x 1 1 0 1 1; grant 1 resource_y 0 1 0 0 0].

Definition s_org : State := mkState no_tls d_org [].

Definition alice : principal := UserP 50.

(** ** Further operations of the role model *)

(** [Role.is_ancestor_of]: [role.ancestors.filter(id=self.id).exists()]. *)
Definition is_ancestor_of (d : DB) (self role : Z) : bool :=
  bool_decide ((role, self) ∈ ancestors d).

(** [Role.visible_roles(user)], as the set of ids in the queryset:
    [descendents__in] asks for a held role among the roles that list [r] as
    an ancestor, [ancestors__in] for a held role among the ancestors of [r]. *)
Definition visible_roles (d : DB) (uid : Z) : gset Z :=
  list_to_set
    (filter (λ r, Exists (λ h, (h, r) ∈ ancestors d ∨ (r, h) ∈ ancestors d)
                         (accessor_roles d (UserP uid)))
            (role_ids d)).

(** [super(Role, self).save()]: the row is updated in place when its id is
    in the table and inserted otherwise. *)
Definition insert_or_update (r : Role) (d : DB) : DB :=
  mkDB (if decide (role_id r ∈ role_ids d)
        then (λ x, if decide (role_id x = role_id r) then r else x) <$> roles d
        else roles d ++ [r])
       (parents d) (ancestors d) (members d) (permissions d).

(** [Role.save]. *)
Definition save (fuel : nat) (r : Role) (s : State) : result State :=
  rebuild_role_ancestor_list fuel (role_id r)
    (with_db s (insert_or_update r (db s))).

(** The role of every grant is a row of the role table (the foreign key of
    [RolePermission.role]). *)
Definition grants_in_roles (d : DB) : Prop :=
  Forall (λ p, perm_role p ∈ role_ids d) (permissions d).

Global Instance grants_in_roles_dec d : Decision (grants_in_roles d) :=
  ltac:(unfold grants_in_roles; apply _).

(** The columns of a grant next to the fields of the record they feed. *)
Definition flag_columns : list ((RolePermission → Z) * (Aggregate → option Z)) :=
  [ (p_create, a_create); (p_read, a_read); (p_write, a_write);
    (p_update, a_update); (p_delete, a_delete); (p_scm_update, a_scm_update);
    (p_execute, a_execute); (p_use, a_use) ].

(** Every flag of the grant is 0 or 1. *)
Definition boolean_grant (p : RolePermission) : Prop :=
  Forall (λ cf : (RolePermission → Z) * (Aggregate → option Z),
            cf.1 p = 0 ∨ cf.1 p = 1) flag_columns.

Global Instance boolean_grant_dec p : Decision (boolean_grant p) :=
  ltac:(unfold boolean_grant; apply _).

(** The store with its role rows in another order. *)
Definition with_roles (d : DB) (rs : list Role) : DB :=
  mkDB rs (parents d) (ancestors d) (members d) (permissions d).

(** ** Singleton roles *)

(** The state together with the nullable, unique column [singleton_name] of
    the role table, kept by role id. *)
Record Store := mkStore {
  store_state : State;
  singleton_names : gmap Z string
}.




(** The uniqueness constraint of the column: the names of the rows that have
    one are pairwise distinct. *)
Definition unique_singleton_names (st : Store) : Prop :=
  NoDup (omap (λ r, singleton_names st !! r) (role_ids (db (store_state st)))).

Global Instance unique_singleton_names_dec st : Decision (unique_singleton_names st) :=
  ltac:(unfold unique_singleton_names; apply _).

(** ** More sample stores *)

(** [d_chain] inside a batch that has queued the stale role 2. *)
Definition s_queued : State := mkState (mkTLS (Some true) (Some {[ 2 ]})) d_chain [].

Definition roles_reordered : list Role := [plain_role 3; plain_role 1; plain_role 2].

(** [d_org] inside a batch with an empty queue. *)
Definition s_org_batch : State := mkState (mkTLS (Some true) (Some ∅)) d_org [].


(** * Proofs *)

(** ** Basic facts *)

Lemma elem_of_related T x a : a ∈ related T x ↔ (x, a) ∈ T.
Proof.
  unfold related. rewrite elem_of_map. split.
  - intros [[y b] [-> [Hy Hin]%elem_of_filter]]. simpl in *. by subst.
  - intros Hin. exists (x, a). split; [done|]. by apply elem_of_filter.
Qed.

Lemma elem_of_stored d r a : a ∈ stored_ancestors d r ↔ (r, a) ∈ ancestors d.
Proof. apply elem_of_related. Qed.

Lemma elem_of_actual d r a :
  a ∈ actual_ancestors d r ↔
  a = r ∨ ∃ p, (r, p) ∈ parents d ∧ (p, a) ∈ ancestors d.
Proof.
  unfold actual_ancestors.
  rewrite elem_of_union, elem_of_singleton, elem_of_set_bind.
  setoid_rewrite elem_of_related. naive_solver.
Qed.

Lemma elem_of_update d r a x :
  (x, a) ∈ ancestors (update_ancestors d r (actual_ancestors d r) (stored_ancestors d r)) ↔
  if decide (x = r) then a ∈ actual_ancestors d r else (x, a) ∈ ancestors d.
Proof.
  unfold update_ancestors; simpl.
  rewrite elem_of_difference, elem_of_union, !elem_of_map.
  case_decide as Hx.
  - subst x. split.
    + intros [[Hin | [b [Heq Hb]]] Hout].
      * destruct (decide (a ∈ actual_ancestors d r)) as [|Hna]; [done|].
        exfalso. apply Hout. exists a. split; [done|].
        apply elem_of_difference. split; [by apply elem_of_stored | done].
      * inversion Heq; subst. set_solver.
    + intros Ha. split.
      * destruct (decide ((r, a) ∈ ancestors d)) as [|Hn]; [by left|].
        right. exists a. split; [done|].
        apply elem_of_difference. split; [done|]. by rewrite elem_of_stored.
      * intros [b [Heq Hb]]. inversion Heq; subst. set_solver.
  - split.
    + intros [[Hin | [b [Heq _]]] _]; [done|]. inversion Heq; congruence.
    + intros Hin. split; [by left|].
      intros [b [Heq _]]. inversion Heq; congruence.
Qed.

Lemma stored_update_same d r :
  stored_ancestors (update_ancestors d r (actual_ancestors d r) (stored_ancestors d r)) r
  = actual_ancestors d r.
Proof.
  apply set_eq; intros a. rewrite elem_of_stored, elem_of_update.
  by rewrite decide_True.
Qed.

Lemma stored_update_other d r x :
  x ≠ r →
  stored_ancestors (update_ancestors d r (actual_ancestors d r) (stored_ancestors d r)) x
  = stored_ancestors d x.
Proof.
  intros Hx. apply set_eq; intros a. rewrite !elem_of_stored, elem_of_update.
  by rewrite decide_False.
Qed.

Lemma elem_of_children d r c :
  c ∈ children d r ↔ c ∈ role_ids d ∧ (c, r) ∈ parents d.
Proof. unfold children. rewrite list_elem_of_filter. tauto. Qed.

Lemma for_each_steps {S} (f : Z → S → result S) (Q : Z → S → S → Prop) l s s' :
  (∀ x a b, f x a = Ok b → Q x a b) →
  for_each f l s = Ok s' → steps Q l s s'.
Proof.
  intros HQ. revert s. induction l as [|x l IH]; intros s; simpl.
  - intros [= ->]. constructor.
  - destruct (f x s) as [s1|e] eqn:Hf; simpl; [|done].
    intros Hrest. econstructor; eauto.
Qed.

Lemma steps_impl {S} (Q Q' : Z → S → S → Prop) l s s' :
  (∀ x a b, Q x a b → Q' x a b) → steps Q l s s' → steps Q' l s s'.
Proof. intros HQ. induction 1; econstructor; eauto. Qed.

Lemma same_frame_refl s : same_frame s s.
Proof. by repeat split. Qed.

Lemma same_frame_trans s1 s2 s3 : same_frame s1 s2 → same_frame s2 s3 → same_frame s1 s3.
Proof. unfold same_frame. intros (?&?&?&?&?) (?&?&?&?&?). repeat split; congruence. Qed.

Lemma steps_same_frame (Q : Z → State → State → Prop) l s s' :
  (∀ x a b, Q x a b → same_frame a b) → steps Q l s s' → same_frame s s'.
Proof.
  intros HQ. induction 1; [apply same_frame_refl|].
  eapply same_frame_trans; eauto.
Qed.

Lemma rebuild_unfold n self s :
  getattr_flag (tls s) = false →
  rebuild_role_ancestor_list (S n) self s =
  if decide (actual_ancestors (db s) self ≠ stored_ancestors (db s) self) then
    for_each (rebuild_role_ancestor_list n) (children (db s) self) (after_store self s)
  else Ok (emit (Recomputed self) s).
Proof. intros Hf. simpl. rewrite Hf. reflexivity. Qed.

Lemma after_store_frame self s : same_frame s (after_store self s).
Proof. by repeat split. Qed.

Lemma rebuild_same_frame fuel self s s' :
  getattr_flag (tls s) = false →
  rebuild_role_ancestor_list fuel self s = Ok s' → same_frame s s'.
Proof.
  revert self s s'. induction fuel as [|n IH]; intros self s s' Hf; [done|].
  rewrite rebuild_unfold by done. case_decide as Hd.
  - intros Hrun.
    assert (Hgen : ∀ l a b, getattr_flag (tls a) = false →
              for_each (rebuild_role_ancestor_list n) l a = Ok b → same_frame a b).
    { clear -IH. induction l as [|x l IHl]; intros a b Ha; simpl.
      - intros [= ->]. apply same_frame_refl.
      - destruct (rebuild_role_ancestor_list n x a) as [a1|] eqn:Hx; simpl; [|done].
        intros Hrest. pose proof (IH _ _ _ Ha Hx) as Hfr.
        eapply same_frame_trans; [exact Hfr|]. apply IHl; [|done].
        destruct Hfr as [-> _]. done. }
    eapply same_frame_trans; [apply (after_store_frame self s)|].
    eapply Hgen; [|exact Hrun]. done.
  - intros [= <-]. by repeat split.
Qed.

(** Induction over the calls of a completed run outside batch mode. *)
Lemma rebuild_ind (P : Z → State → State → Prop) :
  (∀ self s, getattr_flag (tls s) = false →
     actual_ancestors (db s) self = stored_ancestors (db s) self →
     P self s (emit (Recomputed self) s)) →
  (∀ self s s', getattr_flag (tls s) = false →
     actual_ancestors (db s) self ≠ stored_ancestors (db s) self →
     steps (λ c a b, P c a b ∧ same_frame a b) (children (db s) self) (after_store self s) s' →
     P self s s') →
  ∀ fuel self s s', getattr_flag (tls s) = false →
    rebuild_role_ancestor_list fuel self s = Ok s' → P self s s'.
Proof.
  intros Hsame Hchg. induction fuel as [|n IH]; intros self s s' Hf; [done|].
  rewrite rebuild_unfold by done. case_decide as Hd.
  - intros Hrun. apply Hchg; [done..|].
    assert (Hgen : ∀ l a b, getattr_flag (tls a) = false →
              for_each (rebuild_role_ancestor_list n) l a = Ok b →
              steps (λ c a b, P c a b ∧ same_frame a b) l a b).
    { clear -IH. induction l as [|x l IHl]; intros a b Ha; simpl.
      - intros [= ->]. constructor.
      - destruct (rebuild_role_ancestor_list n x a) as [a1|] eqn:Hx; simpl; [|done].
        intros Hrest. pose proof (rebuild_same_frame _ _ _ _ Ha Hx) as Hfr.
        econstructor; [split; [by eapply IH | exact Hfr]|].
        apply IHl; [|done]. destruct Hfr as [-> _]. done. }
    apply Hgen; done.
  - intros [= <-]. apply Hsame; [done|].
    destruct (decide (actual_ancestors (db s) self = stored_ancestors (db s) self));
      [done | contradiction].
Qed.

(** ** Rebuilding restores the invariant *)

Lemma update_consistent_self d r : consistent_at (updated d r) r.
Proof.
  unfold consistent_at. rewrite stored_update_same.
  apply set_eq; intros a. rewrite (elem_of_actual (updated d r)).
  setoid_rewrite elem_of_update. simpl. split.
  - intros [-> | (p & Hp & Hpa)]%elem_of_actual; [by left|].
    destruct (decide (p = r)) as [->|Hne].
    + right. exists r. split; [done|]. rewrite decide_True by done.
      apply elem_of_actual. eauto.
    + right. exists p. rewrite decide_False by done. done.
  - intros [-> | (p & Hp & Hpa)]; [apply elem_of_actual; by left|].
    destruct (decide (p = r)) as [->|Hne]; [done|].
    apply elem_of_actual. eauto.
Qed.

Lemma update_consistent_other d r x :
  x ≠ r → (x, r) ∉ parents d → consistent_at d x → consistent_at (updated d r) x.
Proof.
  unfold consistent_at. intros Hx Hnp Hc. rewrite stored_update_other by done.
  rewrite Hc. apply set_eq; intros a. rewrite !elem_of_actual.
  setoid_rewrite elem_of_update. simpl. split.
  - intros [-> | (p & Hp & Hpa)]; [by left|]. right. exists p.
    rewrite decide_False by congruence. done.
  - intros [-> | (p & Hp & Hpa)]; [by left|]. right. exists p.
    rewrite decide_False in Hpa by congruence. done.
Qed.

Lemma steps_fixes l a b :
  steps (λ c a b, fixes c a b ∧ same_frame a b) l a b →
  ∀ x, x ∈ role_ids (db a) → x ∈ l ∨ consistent_at (db a) x →
       consistent_at (db b) x.
Proof.
  induction 1 as [s | c l s1 s2 s3 [Hfix Hfr] _ IH]; intros x Hx Hor.
  - destruct Hor as [Hin | Hc]; [by apply elem_of_nil in Hin | done].
  - assert (Hx2 : x ∈ role_ids (db s2)).
    { unfold role_ids. destruct Hfr as (_ & -> & _). done. }
    apply IH; [done|].
    destruct Hor as [[-> | Hin]%elem_of_cons | Hc].
    + right. apply Hfix; auto.
    + by left.
    + right. apply Hfix; auto.
Qed.

Lemma rebuild_fixes fuel self s s' :
  getattr_flag (tls s) = false →
  rebuild_role_ancestor_list fuel self s = Ok s' → fixes self s s'.
Proof.
  revert fuel self s s'. apply rebuild_ind.
  - intros self s _ Heq x _ [-> | Hc]; simpl; [|done].
    unfold consistent_at. done.
  - intros self s s' _ _ Hsteps x Hx Hor.
    eapply steps_fixes; [exact Hsteps | exact Hx |].
    destruct (decide (x = self)) as [->|Hne].
    { right. apply update_consistent_self. }
    destruct Hor as [-> | Hc]; [done|].
    destruct (decide ((x, self) ∈ parents (db s))) as [Hp | Hnp].
    + left. apply elem_of_children. done.
    + right. by apply update_consistent_other.
Qed.

(** ** Acyclic graphs: the recursion through the children terminates *)

Lemma ranked_tc d rank x y : ranked d rank → tc (parent_of d) x y → (rank y < rank x)%nat.
Proof.
  intros Hr. induction 1 as [x y Hxy | x y z Hxy _ IH].
  - apply (Hr (x, y) Hxy).
  - pose proof (Hr (x, y) Hxy) as Hlt. simpl in Hlt. lia.
Qed.

Lemma ranked_acyclic d rank : ranked d rank → acyclic d.
Proof. intros Hr r Htc. pose proof (ranked_tc _ _ _ _ Hr Htc). lia. Qed.

Lemma acyclic_frame d d' : parents d' = parents d → acyclic d → acyclic d'.
Proof. intros Hp Ha r. unfold parent_of. rewrite Hp. apply Ha. Qed.

Lemma size_union_le (X Y : gset Z) : (size (X ∪ Y) ≤ size X + size Y)%nat.
Proof.
  rewrite size_union_alt.
  pose proof (subseteq_size (Y ∖ X) Y ltac:(set_solver)). lia.
Qed.

Lemma size_list_to_set_le (l : list Z) : (size (list_to_set (C:=gset Z) l) ≤ length l)%nat.
Proof.
  induction l as [|x l IH].
  - change (list_to_set (C:=gset Z) []) with (∅ : gset Z). by rewrite size_empty.
  - change (list_to_set (C:=gset Z) (x :: l))
      with ({[x]} ∪ list_to_set (C:=gset Z) l).
    etrans; [apply size_union_le|]. rewrite size_singleton. simpl. lia.
Qed.

Lemma rebuild_terminates_aux n :
  ∀ (U A : gset Z) self s,
    getattr_flag (tls s) = false → acyclic (db s) →
    (∀ c, c ∈ role_ids (db s) → c ∈ U) → self ∈ U → A ⊆ U →
    (∀ a, a ∈ A → tc (parent_of (db s)) self a) →
    (size U ≤ n + size A)%nat →
    ∃ s', rebuild_role_ancestor_list n self s = Ok s'.
Proof.
  induction n as [|n IH]; intros U A self s Hf Hacy HU Hself HA Htc Hsz.
  - exfalso.
    assert (Hnot : self ∉ A) by (intros Hin; exact (Hacy _ (Htc _ Hin))).
    assert (Hsub : A ∪ {[self]} ⊆ U) by set_solver.
    apply subseteq_size in Hsub.
    rewrite size_union in Hsub by set_solver. rewrite size_singleton in Hsub. lia.
  - rewrite rebuild_unfold by done. case_decide as Hd; [|eauto].
    assert (Hnot : self ∉ A) by (intros Hin; exact (Hacy _ (Htc _ Hin))).
    assert (Hgen : ∀ l a, same_frame s a →
              (∀ c, c ∈ l → c ∈ children (db s) self) →
              ∃ b, for_each (rebuild_role_ancestor_list n) l a = Ok b).
    { induction l as [|c l IHl]; intros a Hfr Hl; simpl; [eauto|].
      pose proof Hfr as (Htls & Hroles & Hpar & Hmem & Hperm).
      assert (Hc : c ∈ children (db s) self) by (apply Hl; left).
      apply elem_of_children in Hc as [Hcr Hcp].
      destruct (IH U (A ∪ {[self]}) c a) as [a1 Ha1].
      + by rewrite Htls.
      + by eapply acyclic_frame.
      + unfold role_ids. rewrite Hroles. exact HU.
      + by apply HU.
      + set_solver.
      + intros x [Hx | ->%elem_of_singleton]%elem_of_union.
        * eapply tc_l; [|unfold parent_of; rewrite Hpar; by apply Htc].
          unfold parent_of. by rewrite Hpar.
        * apply tc_once. unfold parent_of. by rewrite Hpar.
      + rewrite size_union by set_solver. rewrite size_singleton. lia.
      + rewrite Ha1. simpl. apply IHl.
        * eapply same_frame_trans; [exact Hfr|].
          eapply rebuild_same_frame; [|exact Ha1]. by rewrite Htls.
        * intros x Hx. apply Hl. by right. }
    apply Hgen; [apply after_store_frame | done].
Qed.

Lemma rebuild_terminates fuel self s :
  getattr_flag (tls s) = false → acyclic (db s) →
  (length (roles (db s)) < fuel)%nat →
  ∃ s', rebuild_role_ancestor_list fuel self s = Ok s'.
Proof.
  intros Hf Hacy Hlen.
  apply (rebuild_terminates_aux fuel (list_to_set (role_ids (db s)) ∪ {[self]}) ∅);
    try done.
  - intros c Hc. apply elem_of_union. left. by apply elem_of_list_to_set.
  - set_solver.
  - rewrite size_empty. etrans; [apply size_union_le|].
    rewrite size_singleton.
    pose proof (size_list_to_set_le (role_ids (db s))) as Hle.
    unfold role_ids in Hle at 2. rewrite length_fmap in Hle. lia.
Qed.

(** ** The log of a run and the rows a run can touch *)

Lemma steps_logs l a b :
  steps (λ c a b, logs c a b ∧ same_frame a b) l a b →
  ∃ k, log b = log a ++ k ∧ ∀ c, c ∈ l → Recomputed c ∈ k.
Proof.
  induction 1 as [s | c l s1 s2 s3 [(k1 & Hk1 & _) _] _ (k2 & Hk2 & Hin)].
  - exists []. split; [by rewrite app_nil_r|]. by intros c Hc%elem_of_nil.
  - exists (Recomputed c :: k1 ++ k2). split.
    + rewrite Hk2, Hk1, <- app_assoc. done.
    + intros x [-> | Hx]%elem_of_cons; [by left|].
      right. apply elem_of_app. right. by apply Hin.
Qed.

Lemma rebuild_logs fuel self s s' :
  getattr_flag (tls s) = false →
  rebuild_role_ancestor_list fuel self s = Ok s' → logs self s s'.
Proof.
  revert fuel self s s'. apply rebuild_ind.
  - intros self s _ Heq. exists []. split; [done|]. split; [done|]. done.
  - intros self s s' _ Hne Hsteps.
    apply steps_logs in Hsteps as (k & Hk & Hin).
    exists (Stored self :: k). split; [|split].
    + rewrite Hk. simpl. rewrite <- !app_assoc. done.
    + done.
    + intros _. split; [by left|]. intros c Hc. right. by apply Hin.
Qed.

Lemma parent_not_below d r p : acyclic d → (r, p) ∈ parents d → ¬ below d p r.
Proof.
  intros Hacy Hp Hb. apply (Hacy p).
  eapply tc_rtc_l; [exact Hb|]. by apply tc_once.
Qed.

Lemma parent_of_frame d d' : parents d' = parents d → parent_of d' = parent_of d.
Proof. unfold parent_of. by intros ->. Qed.

Lemma steps_touches_below d l a b :
  steps (λ c a b, touches_below c a b ∧ same_frame a b) l a b →
  parents (db a) = parents d →
  ∀ x, (∀ c, c ∈ l → ¬ below d x c) →
       stored_ancestors (db b) x = stored_ancestors (db a) x.
Proof.
  induction 1 as [s | c l s1 s2 s3 [Ht Hfr] _ IH]; intros Hp x Hx; [done|].
  rewrite IH; [| destruct Hfr as (_ & _ & -> & _); done
               | intros y Hy; apply Hx; by right].
  apply Ht. unfold below. rewrite (parent_of_frame d) by done.
  apply Hx. by left.
Qed.

Lemma rebuild_touches_below fuel self s s' :
  getattr_flag (tls s) = false →
  rebuild_role_ancestor_list fuel self s = Ok s' → touches_below self s s'.
Proof.
  revert fuel self s s'. apply rebuild_ind.
  - intros self s _ _ x _. done.
  - intros self s s' _ _ Hsteps x Hx.
    rewrite (steps_touches_below (db s) _ _ _ Hsteps); try done.
    + simpl. apply stored_update_other. intros ->. apply Hx. apply rtc_refl.
    + intros c Hc Hxc. apply elem_of_children in Hc as [_ Hc].
      apply Hx. eapply rtc_r; [exact Hxc | exact Hc].
Qed.

(** On an acyclic graph the rows written for [self] survive the rebuilds of
    its descendants. *)
Lemma rebuild_stores_actual fuel self s s' :
  getattr_flag (tls s) = false → acyclic (db s) →
  rebuild_role_ancestor_list fuel self s = Ok s' →
  stored_ancestors (db s') self = actual_ancestors (db s) self.
Proof.
  intros Hf Hacy Hrun. destruct fuel as [|n]; [done|].
  rewrite rebuild_unfold in Hrun by done. case_decide as Hd.
  - assert (Hsteps : steps (λ c a b, touches_below c a b ∧ same_frame a b)
                       (children (db s) self) (after_store self s) s').
    { assert (Hgen : ∀ l a b, getattr_flag (tls a) = false →
                for_each (rebuild_role_ancestor_list n) l a = Ok b →
                steps (λ c a b, touches_below c a b ∧ same_frame a b) l a b).
      { induction l as [|x l IHl]; intros a b Ha; simpl.
        - intros [= ->]. constructor.
        - destruct (rebuild_role_ancestor_list n x a) as [a1|] eqn:Hx; simpl; [|done].
          intros Hrest. pose proof (rebuild_same_frame _ _ _ _ Ha Hx) as Hfr.
          econstructor; [split; [by eapply rebuild_touches_below | exact Hfr]|].
          apply IHl; [|done]. destruct Hfr as [-> _]. done. }
      by apply Hgen. }
    rewrite (steps_touches_below (db s) _ _ _ Hsteps); [| done |].
    + simpl. apply stored_update_same.
    + intros c [_ Hc]%elem_of_children Hb. by apply (parent_not_below (db s) c self).
  - injection Hrun as <-. simpl.
    destruct (decide (actual_ancestors (db s) self = stored_ancestors (db s) self));
      [done | contradiction].
Qed.

Lemma for_each_mono {S} (f g : Z → S → result S) l s s' :
  (∀ x a b, f x a = Ok b → g x a = Ok b) →
  for_each f l s = Ok s' → for_each g l s = Ok s'.
Proof.
  intros Hfg. revert s. induction l as [|x l IH]; intros s; simpl; [done|].
  destruct (f x s) as [a|] eqn:Hx; simpl; [|done].
  rewrite (Hfg _ _ _ Hx). simpl. apply IH.
Qed.

(** A deeper stack never changes the outcome of a completed run. *)
Lemma rebuild_fuel_mono n m self s s' :
  (n ≤ m)%nat →
  rebuild_role_ancestor_list n self s = Ok s' →
  rebuild_role_ancestor_list m self s = Ok s'.
Proof.
  revert m self s s'. induction n as [|n IH]; intros m self s s' Hle; [done|].
  destruct m as [|m]; [lia|]. simpl.
  destruct (getattr_flag (tls s)); [done|].
  case_decide; [|done].
  apply for_each_mono. intros x a b. apply IH. lia.
Qed.

(** ** Closure engine: the claims *)

(** C1: outside a batch window and on an acyclic graph, [rebuild(R)] completes
    and leaves [ancestors(R) = {R} ∪ ⋃ ancestors(P)] over the parents [P] of
    [R], whose own sets it does not touch; when the parents' sets were the
    true closures, so is the set of [R]; and when the stored set of [R]
    changed, every direct child of [R], that is every role with a parent row
    to [R], was rebuilt in turn. *)
Theorem rebuild_establishes_invariant fuel R s :
  getattr_flag (tls s) = false →
  acyclic (db s) →
  R ∈ role_ids (db s) →
  (length (roles (db s)) < fuel)%nat →
  ∃ s' k,
    rebuild_role_ancestor_list fuel R s = Ok s'
    ∧ parents (db s') = parents (db s)
    ∧ stored_ancestors (db s') R
      = {[R]} ∪ set_bind (stored_ancestors (db s')) (direct_parents (db s') R)
    ∧ (∀ P, P ∈ direct_parents (db s) R →
         stored_ancestors (db s') P = stored_ancestors (db s) P)
    ∧ ((∀ P, P ∈ direct_parents (db s) R → closure_at (db s) P) →
         closure_at (db s') R)
    ∧ appended s s' k
    ∧ (stored_ancestors (db s') R ≠ stored_ancestors (db s) R →
         ∀ c, c ∈ role_ids (db s) → (c, R) ∈ parents (db s) → Recomputed c ∈ k).
Proof.
  intros Hf Hacy HR Hfuel.
  destruct (rebuild_terminates fuel R s Hf Hacy Hfuel) as [s' Hrun].
  pose proof (rebuild_same_frame _ _ _ _ Hf Hrun) as (_ & _ & Hpar & _).
  pose proof (rebuild_fixes _ _ _ _ Hf Hrun R HR (or_introl eq_refl)) as Hfix.
  pose proof (rebuild_touches_below _ _ _ _ Hf Hrun) as Hbelow.
  destruct (rebuild_logs _ _ _ _ Hf Hrun) as (l & Hl & Hsame & Hchg).
  assert (Hpars : ∀ P, P ∈ direct_parents (db s) R →
            stored_ancestors (db s') P = stored_ancestors (db s) P).
  { intros P HP%elem_of_related. apply Hbelow. by apply parent_not_below. }
  exists s', (Recomputed R :: l).
  split; [done|]. split; [done|]. split; [|split; [exact Hpars|split; [|split; [exact Hl|]]]].
  - rewrite Hfix. unfold actual_ancestors, direct_parents, stored_ancestors.
    by rewrite (union_comm_L _ {[R]}).
  - intros Hclo a. rewrite Hfix, elem_of_actual. split.
    + intros [-> | (P & HP & HPa)]; [apply rtc_refl|].
      rewrite Hpar in HP.
      assert (HPd : P ∈ direct_parents (db s) R) by by apply elem_of_related.
      apply elem_of_stored in HPa. rewrite (Hpars P HPd) in HPa.
      apply (Hclo P HPd) in HPa.
      rewrite (parent_of_frame (db s)) by done.
      eapply rtc_l; [exact HP | exact HPa].
    + rewrite (parent_of_frame (db s)) by done.
      intros [-> | (P & HP & HPa)]%rtc_inv; [by left|]. right.
      exists P. rewrite Hpar. split; [exact HP|].
      assert (HPd : P ∈ direct_parents (db s) R) by by apply elem_of_related.
      apply elem_of_stored. rewrite (Hpars P HPd). by apply (Hclo P HPd).
  - intros Hne c Hc Hcp.
    destruct (decide (actual_ancestors (db s) R = stored_ancestors (db s) R)) as [Heq | Hneq].
    + destruct (Hsame Heq) as [_ Hdb]. rewrite Hdb in Hne. done.
    + right. apply Hchg; [done|]. by apply elem_of_children.
Qed.

(** C6 (amended): on a finite acyclic graph [rebuild(R)] terminates with a
    stack no deeper than the number of roles plus one; the call either finds
    the recomputed set equal to the stored one and stops without writing or
    propagating, or it changes the stored set of [R] and goes on to the
    children.  Acyclicity is sufficient, not necessary: the store [s_cycle]
    has a cycle and its rebuilds complete. *)
Theorem rebuild_terminates_on_dag fuel R s :
  getattr_flag (tls s) = false →
  acyclic (db s) →
  (length (roles (db s)) < fuel)%nat →
  ∃ s' k,
    rebuild_role_ancestor_list fuel R s = Ok s'
    ∧ appended s s' (Recomputed R :: k)
    ∧ (actual_ancestors (db s) R = stored_ancestors (db s) R →
         k = [] ∧ db s' = db s)
    ∧ (actual_ancestors (db s) R ≠ stored_ancestors (db s) R →
         stored_ancestors (db s') R ≠ stored_ancestors (db s) R
         ∧ Stored R ∈ k).
Proof.
  intros Hf Hacy Hfuel.
  destruct (rebuild_terminates fuel R s Hf Hacy Hfuel) as [s' Hrun].
  destruct (rebuild_logs _ _ _ _ Hf Hrun) as (k & Hk & Hsame & Hchg).
  exists s', k. split; [done|]. split; [done|]. split; [done|].
  intros Hne. split; [|by apply Hchg].
  rewrite (rebuild_stores_actual _ _ _ _ Hf Hacy Hrun). done.
Qed.

(** C9: a second [rebuild(R)] right after a completed first one finds the
    recomputed set equal to the stored one: it writes nothing, rebuilds no
    child, and leaves the store as it was. *)
Theorem rebuild_twice_is_noop fuel fuel' R s s' :
  getattr_flag (tls s) = false →
  R ∈ role_ids (db s) →
  (0 < fuel')%nat →
  rebuild_role_ancestor_list fuel R s = Ok s' →
  actual_ancestors (db s') R = stored_ancestors (db s') R
  ∧ ∃ s'', rebuild_role_ancestor_list fuel' R s' = Ok s''
         ∧ db s'' = db s'
         ∧ stored_ancestors (db s'') R = stored_ancestors (db s') R
         ∧ log s'' = log s' ++ [Recomputed R].
Proof.
  intros Hf HR Hfuel Hrun.
  pose proof (rebuild_fixes _ _ _ _ Hf Hrun R HR (or_introl eq_refl)) as Hfix.
  pose proof (rebuild_same_frame _ _ _ _ Hf Hrun) as (Htls & _).
  split; [done|].
  destruct fuel' as [|n]; [lia|].
  exists (emit (Recomputed R) s'). split; [|done].
  rewrite rebuild_unfold by by rewrite Htls.
  rewrite decide_False; [done|]. intros Hne. by apply Hne.
Qed.

(** ** Batch coordinator *)

Lemma for_each_rebuild_steps (P : Z → State → State → Prop) fuel l a b :
  (∀ self s s', getattr_flag (tls s) = false →
     rebuild_role_ancestor_list fuel self s = Ok s' → P self s s') →
  getattr_flag (tls a) = false →
  for_each (rebuild_role_ancestor_list fuel) l a = Ok b →
  steps (λ c a b, P c a b ∧ same_frame a b) l a b.
Proof.
  intros HP. revert a. induction l as [|x l IHl]; intros a Ha; simpl.
  - intros [= ->]. constructor.
  - destruct (rebuild_role_ancestor_list fuel x a) as [a1|] eqn:Hx; simpl; [|done].
    intros Hrest. pose proof (rebuild_same_frame _ _ _ _ Ha Hx) as Hfr.
    econstructor; [split; [by eapply HP | exact Hfr]|].
    apply IHl; [|done]. destruct Hfr as [-> _]. done.
Qed.

Lemma for_each_rebuild_terminates fuel l s :
  getattr_flag (tls s) = false → acyclic (db s) →
  (length (roles (db s)) < fuel)%nat →
  ∃ s', for_each (rebuild_role_ancestor_list fuel) l s = Ok s'.
Proof.
  revert s. induction l as [|x l IH]; intros s Hf Hacy Hfuel; simpl; [eauto|].
  destruct (rebuild_terminates fuel x s Hf Hacy Hfuel) as [s1 Hs1].
  rewrite Hs1. simpl.
  pose proof (rebuild_same_frame _ _ _ _ Hf Hs1) as (Htls & Hroles & Hpar & _).
  apply IH.
  - by rewrite Htls.
  - by eapply acyclic_frame.
  - by rewrite Hroles.
Qed.

Lemma rebuild_deferred fuel R s q :
  getattr_flag (tls s) = true →
  roles_needing_rebuilding (tls s) = Some q →
  (0 < fuel)%nat →
  rebuild_role_ancestor_list fuel R s =
  Ok (emit (Deferred R)
        (with_tls s (mkTLS (batch_role_rebuilding (tls s)) (Some (q ∪ {[R]}))))).
Proof.
  intros Hf Hq Hfuel. destruct fuel as [|n]; [lia|]. simpl. by rewrite Hf, Hq.
Qed.

(** A flush that completes: what it leaves behind. *)
Lemma flush_completes fuel s q :
  roles_needing_rebuilding (tls s) = Some q →
  acyclic (db s) →
  (length (roles (db s)) < fuel)%nat →
  ∃ s2 k,
    for_each (rebuild_role_ancestor_list fuel) (refetch (db s) q)
      (flag_restored false s) = Ok s2
    ∧ batch_exit fuel false s
      = (with_tls s2 (mkTLS (batch_role_rebuilding (tls s2)) None), None)
    ∧ tls s2 = mkTLS (Some false) (Some q)
    ∧ same_frame (flag_restored false s) s2
    ∧ log s2 = log s ++ k
    ∧ (∀ r, r ∈ q → r ∈ role_ids (db s) → Recomputed r ∈ k)
    ∧ (∀ x, x ∈ role_ids (db s) → x ∈ q ∨ consistent_at (db s) x →
            consistent_at (db s2) x).
Proof.
  intros Hq Hacy Hfuel.
  destruct (for_each_rebuild_terminates fuel (refetch (db s) q) (flag_restored false s))
    as [s2 Hs2]; [done..|].
  assert (Hoff : getattr_flag (tls (flag_restored false s)) = false) by done.
  pose proof (for_each_rebuild_steps _ _ _ _ _
                (λ self a b Ha Hr, rebuild_logs fuel self a b Ha Hr) Hoff Hs2) as Hlogs.
  pose proof (for_each_rebuild_steps _ _ _ _ _
                (λ self a b Ha Hr, rebuild_fixes fuel self a b Ha Hr) Hoff Hs2) as Hfix.
  pose proof (steps_same_frame _ _ _ _ (λ x a b H, proj2 H) Hlogs) as Hfr.
  apply steps_logs in Hlogs as (k & Hk & Hin).
  exists s2, k. split; [done|]. split; [|split; [|split; [done|split; [done|split]]]].
  - unfold batch_exit.
    change (roles_needing_rebuilding (tls (flag_restored false s)))
      with (roles_needing_rebuilding (tls s)).
    change (db (flag_restored false s)) with (db s).
    rewrite Hq. unfold atomic. by rewrite Hs2.
  - destruct Hfr as (-> & _). simpl. by rewrite Hq.
  - intros r Hr Hrole. apply Hin. unfold refetch. by apply list_elem_of_filter.
  - intros x Hx Hor. apply (steps_fixes _ _ _ Hfix x Hx).
    destruct Hor as [Hxq | Hc]; [left | by right].
    unfold refetch. by apply list_elem_of_filter.
Qed.


(** C10: when the body of the outermost scope raises, the exit clause still
    runs: the roles queued so far are rebuilt, the queue is dropped, the flag
    is back to its value before the scope, and the exception of the body is
    the one that goes on. *)
Theorem batch_exit_runs_on_exception fuel (body : block) s s1 e q :
  getattr_flag (tls s) = false →
  body (batch_enter s).2 = (s1, Some e) →
  roles_needing_rebuilding (tls s1) = Some q →
  acyclic (db s1) →
  (length (roles (db s1)) < fuel)%nat →
  ∃ s2 s' k,
    for_each (rebuild_role_ancestor_list fuel) (refetch (db s1) q)
      (flag_restored false s1) = Ok s2
    ∧ batch_role_ancestor_rebuilding fuel body s = (s', Some e)
    ∧ db s' = db s2
    ∧ roles_needing_rebuilding (tls s') = None
    ∧ getattr_flag (tls s') = getattr_flag (tls s)
    ∧ log s' = log s1 ++ k
    ∧ ∀ r, r ∈ q → r ∈ role_ids (db s1) → Recomputed r ∈ k.
Proof.
  intros Hf Hbody Hq Hacy Hfuel.
  destruct (flush_completes fuel s1 q Hq Hacy Hfuel)
    as (s2 & k & Hrun & Hexit & Htls & _ & Hlog & Hin & _).
  exists s2, (with_tls s2 (mkTLS (batch_role_rebuilding (tls s2)) None)), k.
  split; [done|]. split; [|repeat split; try done].
  - unfold batch_role_ancestor_rebuilding.
    unfold batch_enter in *. rewrite Hf in *. simpl in Hbody. rewrite Hbody, Hexit. done.
  - simpl. by rewrite Htls, Hf.
Qed.

(** ** Permission resolver *)

Lemma Max_nil col : Max col [] = None.
Proof. done. Qed.

Lemma Max_None col rows : Max col rows = None ↔ rows = [].
Proof. destruct rows; simpl; split; done. Qed.

Lemma Max_spec col rows :
  rows ≠ [] → ∃ m, Max col rows = Some m ∧ max_over (λ p, p ∈ rows) col m.
Proof.
  induction rows as [|p rows IH]; [done|]. intros _.
  destruct rows as [|p' rows'].
  - exists (col p). split; [done|]. split.
    + exists p. split; [by left | done].
    + intros x ->%list_elem_of_singleton. lia.
  - destruct IH as (m & Hm & (x & Hx & Hxm) & Hub); [done|].
    exists (Z.max (col p) m). split.
    + change (Max col (p :: p' :: rows'))
        with (Some (match Max col (p' :: rows') with
                    | None => col p | Some m => Z.max (col p) m end)).
      by rewrite Hm.
    + split.
      * destruct (Z.max_spec (col p) m) as [[_ ->] | [_ ->]].
        -- exists x. split; [by right | done].
        -- exists p. split; [by left | done].
      * intros y [-> | Hy]%elem_of_cons; [lia|].
        specialize (Hub y Hy). lia.
Qed.

Lemma max_over_ext (sel sel' : RolePermission → Prop) col m :
  (∀ p, sel p ↔ sel' p) → max_over sel col m → max_over sel' col m.
Proof.
  intros Hext [(p & Hp & Hm) Hub]. split.
  - exists p. split; [by apply Hext | done].
  - intros x Hx. apply Hub. by apply Hext.
Qed.

Lemma elem_of_user_rows d resource rs p :
  p ∈ user_rows d resource rs ↔
  p ∈ permissions d ∧ on_resource resource p
  ∧ ∃ h, h ∈ rs ∧ h ∈ stored_ancestors d (perm_role p).
Proof.
  unfold user_rows. rewrite list_elem_of_bind. split.
  - intros (g & Hin & [Hres Hg]%list_elem_of_filter).
    apply list_elem_of_bind in Hin as (a & Hin & Ha%elem_of_elements).
    case_decide as Hars; [|by apply elem_of_nil in Hin].
    apply list_elem_of_singleton in Hin as ->. eauto.
  - intros (Hp & Hres & h & Hh & Ha). exists p. split.
    + apply list_elem_of_bind. exists h. split; [|by apply elem_of_elements].
      rewrite decide_True by done. by left.
    + by apply list_elem_of_filter.
Qed.

Lemma elem_of_role_rows d resource role p :
  p ∈ role_rows d resource role ↔ role_selected d resource role p.
Proof.
  unfold role_rows, role_selected. rewrite list_elem_of_filter, elem_of_stored. tauto.
Qed.

Lemma aggregate_nil : none_if_no_read (aggregate []) = None.
Proof. done. Qed.

Lemma aggregate_spec rows :
  rows ≠ [] →
  none_if_no_read (aggregate rows) = Some (aggregate rows)
  ∧ flags_max_over (λ p, p ∈ rows) (aggregate rows).
Proof.
  intros Hne. split.
  - unfold none_if_no_read. simpl.
    destruct (Max_spec p_read rows Hne) as (m & -> & _). done.
  - unfold flags_max_over; simpl. repeat split; by apply Max_spec.
Qed.

Lemma flags_max_over_ext (sel sel' : RolePermission → Prop) res :
  (∀ p, sel p ↔ sel' p) → flags_max_over sel res → flags_max_over sel' res.
Proof.
  intros Hext (H1 & H2 & H3 & H4 & H5 & H6 & H7 & H8).
  repeat split;
    match goal with
    | H : ∃ m, ?f res = Some m ∧ _ |- ∃ m, ?f res = Some m ∧ _ =>
        destruct H as (m & Hm & Hmax); exists m; split; [done|];
        by apply (max_over_ext sel sel')
    end.
Qed.

Lemma user_rows_selected d resource user p :
  p ∈ user_rows d resource (accessor_roles d user) ↔ user_selected d resource user p.
Proof. apply elem_of_user_rows. Qed.

Lemma none_if_no_read_None rows :
  none_if_no_read (aggregate rows) = None ↔ rows = [].
Proof.
  unfold none_if_no_read. simpl. rewrite <- (Max_None p_read rows).
  destruct (Max p_read rows); split; done.
Qed.

Lemma none_if_no_read_Some rows res :
  none_if_no_read (aggregate rows) = Some res →
  rows ≠ [] ∧ res = aggregate rows.
Proof.
  intros Hres. split.
  - intros ->. done.
  - unfold none_if_no_read in Hres. destruct (a_read (aggregate rows)); congruence.
Qed.

Lemma rows_nil_iff (rows : list RolePermission) (sel : RolePermission → Prop) :
  (∀ p, p ∈ rows ↔ sel p) → rows = [] ↔ ¬ ∃ p, sel p.
Proof.
  intros Hsel. split.
  - intros -> (p & Hp%Hsel). by apply elem_of_nil in Hp.
  - intros Hno. destruct rows as [|p rows]; [done|].
    exfalso. apply Hno. exists p. apply Hsel. by left.
Qed.

Lemma flags_max_over_full sel res : flags_max_over sel res → full_record res.
Proof.
  intros (H1 & H2 & H3 & H4 & H5 & H6 & H7 & H8).
  repeat split;
    match goal with
    | H : ∃ m, ?f res = Some m ∧ _ |- is_Some (?f res) =>
        destruct H as (m & -> & _); by eexists
    end.
Qed.

Lemma consistent_at_self d r : consistent_at d r → r ∈ stored_ancestors d r.
Proof. intros ->. apply elem_of_actual. by left. Qed.

(** The outcome of a query over [rows], told by the selection it stands for. *)
Lemma query_outcome (rows : list RolePermission) (sel : RolePermission → Prop) :
  (∀ p, p ∈ rows ↔ sel p) →
  (none_if_no_read (aggregate rows) = None ↔ ¬ ∃ p, sel p)
  ∧ (∀ res, none_if_no_read (aggregate rows) = Some res → flags_max_over sel res)
  ∧ ((∃ p, sel p) → ∃ res, none_if_no_read (aggregate rows) = Some res).
Proof.
  intros Hsel. split; [|split].
  - rewrite none_if_no_read_None. by apply rows_nil_iff.
  - intros res [Hne ->]%none_if_no_read_Some.
    apply (flags_max_over_ext (λ p, p ∈ rows)); [done|].
    by apply aggregate_spec.
  - intros Hex. exists (aggregate rows). apply aggregate_spec.
    intros Hnil. by apply (rows_nil_iff rows sel Hsel) in Hnil.
Qed.

(** C2 (amended): the user query resolves the directly-held roles (the
    [members] rows of a user, the roles bound to another kind of accessor),
    selects exactly the grants on the resource whose role has one of those
    roles among its stored ancestors (the role itself once it was rebuilt),
    and returns the maximum of every flag over the selected grants, so a
    [read] granted by one and a [write] granted by another both show. *)
Theorem user_permissions_aggregate d resource user :
  (∀ uid h, h ∈ accessor_roles d (UserP uid) ↔ h ∈ role_ids d ∧ (h, uid) ∈ members d)
  ∧ (∀ ct oid h, h ∈ accessor_roles d (OtherP ct oid) ↔
       ∃ r, r ∈ roles d ∧ role_id r = h
            ∧ role_content_type r = Some ct ∧ role_object_id r = Some oid)
  ∧ (∀ p, p ∈ permissions d → on_resource resource p →
       perm_role p ∈ accessor_roles d user → consistent_at d (perm_role p) →
       user_selected d resource user p)
  ∧ (get_user_permissions_on_resource d resource user = None ↔
       ¬ ∃ p, user_selected d resource user p)
  ∧ (∀ res, get_user_permissions_on_resource d resource user = Some res →
       flags_max_over (user_selected d resource user) res)
  ∧ (∀ pA pB, user_selected d resource user pA → user_selected d resource user pB →
       ∃ res r w, get_user_permissions_on_resource d resource user = Some res
                  ∧ a_read res = Some r ∧ p_read pA ≤ r
                  ∧ a_write res = Some w ∧ p_write pB ≤ w).
Proof.
  destruct (query_outcome _ _ (user_rows_selected d resource user))
    as (Hnone & Hsome & Hex).
  split; [|split; [|split; [|split; [|split]]]].
  - intros uid h. simpl. rewrite list_elem_of_filter. tauto.
  - intros ct oid h. simpl. rewrite list_elem_of_fmap. split.
    + intros (r & -> & [[? ?] ?]%list_elem_of_filter). eauto 6.
    + intros (r & Hr & <- & Hct & Hoid). exists r. split; [done|].
      by apply list_elem_of_filter.
  - intros p Hp Hres Hheld Hcons. split; [done|]. split; [done|].
    exists (perm_role p). split; [done|]. by apply consistent_at_self.
  - exact Hnone.
  - exact Hsome.
  - intros pA pB HA HB.
    destruct (Hex (ex_intro _ pA HA)) as [res Hres].
    destruct (Hsome res Hres) as (_ & (r & Hr & _ & Hrub) & (w & Hw & _ & Hwub) & _).
    exists res, r, w. auto 8.
Qed.

(** C3 (amended): the role query returns the maximum of every flag over
    exactly the grants on the resource whose role has the given role among
    its stored ancestors, that is, the grants of the role and of its
    descendants. *)
Theorem role_permissions_aggregate d resource role :
  (∀ p, role_selected d resource role p ↔
        p ∈ permissions d ∧ on_resource resource p
        ∧ (perm_role p, role) ∈ ancestors d)
  ∧ (∀ p, p ∈ permissions d → on_resource resource p → perm_role p = role →
       consistent_at d role → role_selected d resource role p)
  ∧ (get_role_permissions_on_resource d resource role = None ↔
       ¬ ∃ p, role_selected d resource role p)
  ∧ (∀ res, get_role_permissions_on_resource d resource role = Some res →
       flags_max_over (role_selected d resource role) res).
Proof.
  destruct (query_outcome _ _ (elem_of_role_rows d resource role))
    as (Hnone & Hsome & _).
  split; [|split; [|split]].
  - intros p. unfold role_selected. by rewrite elem_of_stored.
  - intros p Hp Hres Heq Hcons. split; [done|]. split; [done|].
    rewrite Heq. by apply consistent_at_self.
  - exact Hnone.
  - exact Hsome.
Qed.

(** C7: both queries return the absence value exactly when no grant is
    selected, which is exactly when the aggregated [read] is NULL; otherwise
    they return a record with every one of the eight fields present. *)
Theorem absence_is_signalled_by_read d resource user role :
  (get_user_permissions_on_resource d resource user = None ↔
     ¬ ∃ p, user_selected d resource user p)
  ∧ (get_user_permissions_on_resource d resource user = None ↔
       a_read (aggregate (user_rows d resource (accessor_roles d user))) = None)
  ∧ (∀ res, get_user_permissions_on_resource d resource user = Some res →
       full_record res)
  ∧ (get_role_permissions_on_resource d resource role = None ↔
       ¬ ∃ p, role_selected d resource role p)
  ∧ (get_role_permissions_on_resource d resource role = None ↔
       a_read (aggregate (role_rows d resource role)) = None)
  ∧ (∀ res, get_role_permissions_on_resource d resource role = Some res →
       full_record res).
Proof.
  destruct (query_outcome _ _ (user_rows_selected d resource user))
    as (Hunone & Husome & _).
  destruct (query_outcome _ _ (elem_of_role_rows d resource role))
    as (Hrnone & Hrsome & _).
  split; [exact Hunone|]. split; [|split; [|split; [exact Hrnone|split]]].
  - unfold get_user_permissions_on_resource, none_if_no_read.
    destruct (a_read _); split; done.
  - intros res Hres. eapply flags_max_over_full. by apply Husome.
  - unfold get_role_permissions_on_resource, none_if_no_read.
    destruct (a_read _); split; done.
  - intros res Hres. eapply flags_max_over_full. by apply Hrsome.
Qed.

(** ** Acyclic graphs: induction towards the parents *)

Lemma tc_target d x y : tc (parent_of d) x y → y ∈ elements (set_map (D:=gset Z) snd (parents d)).
Proof.
  intros Htc. apply elem_of_elements, elem_of_map.
  assert (∃ z, parent_of d z y) as [z Hz].
  { induction Htc; eauto. }
  exists (z, y). done.
Qed.

Lemma acyclic_sn d : acyclic d → ∀ x, sn (parent_of d) x.
Proof.
  intros Hacy x. apply tc_finite_sn; [exact Hacy|].
  exists (elements (set_map (D:=gset Z) snd (parents d))). intros y. apply tc_target.
Qed.

Lemma tc_parent_mono d d' x y :
  parents d ⊆ parents d' → tc (parent_of d) x y → tc (parent_of d') x y.
Proof.
  intros Hsub. induction 1 as [x y Hxy | x y z Hxy _ IH].
  - apply tc_once. exact (Hsub _ Hxy).
  - eapply tc_l; [exact (Hsub _ Hxy) | exact IH].
Qed.

Lemma rtc_parent_mono d d' x y :
  parents d ⊆ parents d' → rtc (parent_of d) x y → rtc (parent_of d') x y.
Proof. intros Hsub. apply rtc_subrel. intros a b Hab. exact (Hsub _ Hab). Qed.

Lemma acyclic_subgraph d d' : parents d ⊆ parents d' → acyclic d' → acyclic d.
Proof. intros Hsub Hacy r Htc. apply (Hacy r). by eapply tc_parent_mono. Qed.

Lemma all_consistent_forall d : all_consistent d ↔ consistent d.
Proof. unfold all_consistent, consistent. by rewrite Forall_forall. Qed.

(** A consistent store over an acyclic graph holds the true closure. *)
Lemma consistent_closure d :
  consistent d → acyclic d → parents_in_roles d →
  ∀ r, r ∈ role_ids d → closure_at d r.
Proof.
  intros Hcons Hacy Hfk r. induction (acyclic_sn d Hacy r) as [r _ IH].
  intros Hr a. rewrite (Hcons r Hr), elem_of_actual. split.
  - intros [-> | (p & Hp & Hpa)]; [apply rtc_refl|].
    eapply rtc_l; [exact Hp|]. apply IH; [exact Hp | by apply (Hfk _ Hp) |].
    by apply elem_of_stored.
  - intros [-> | (p & Hp & Hpa)]%rtc_inv; [by left|]. right.
    exists p. split; [exact Hp|]. apply elem_of_stored.
    apply IH; [exact Hp | by apply (Hfk _ Hp) | done].
Qed.

(** ** Mutations: what they keep *)

Lemma steps_outside_roles l a b :
  steps (λ c a b, outside_roles c a b ∧ same_frame a b) l a b →
  (∀ c, c ∈ l → c ∈ role_ids (db a)) →
  ∀ x, x ∉ role_ids (db a) →
       stored_ancestors (db b) x = stored_ancestors (db a) x.
Proof.
  induction 1 as [s | c l s1 s2 s3 [Hout Hfr] _ IH]; intros Hl x Hx; [done|].
  assert (Hroles : role_ids (db s2) = role_ids (db s1)).
  { unfold role_ids. by destruct Hfr as (_ & -> & _). }
  rewrite IH; [| rewrite Hroles; intros y Hy; apply Hl; by right | by rewrite Hroles].
  apply Hout; [|done]. intros ->. apply Hx, Hl. by left.
Qed.

Lemma rebuild_outside_roles fuel self s s' :
  getattr_flag (tls s) = false →
  rebuild_role_ancestor_list fuel self s = Ok s' → outside_roles self s s'.
Proof.
  revert fuel self s s'. apply rebuild_ind.
  - intros self s _ _ x _ _. done.
  - intros self s s' _ _ Hsteps x Hne Hx.
    rewrite (steps_outside_roles _ _ _ Hsteps); try done.
    + simpl. by apply stored_update_other.
    + intros c Hc. by apply elem_of_children in Hc as [? _].
Qed.

Lemma apply_edge_roles m d : roles (apply_edge m d) = roles d.
Proof. by destruct m. Qed.

Lemma apply_edge_ancestors m d : ancestors (apply_edge m d) = ancestors d.
Proof. by destruct m. Qed.

Lemma apply_edge_permissions m d : permissions (apply_edge m d) = permissions d.
Proof. by destruct m. Qed.

Lemma apply_edge_role_ids m d : role_ids (apply_edge m d) = role_ids d.
Proof. unfold role_ids. by rewrite apply_edge_roles. Qed.

Lemma elem_of_apply_edge m d e :
  e ∈ parents (apply_edge m d) ↔
  match m with
  | AddParent r p => e ∈ parents d ∨ e = (r, p)
  | RemoveParent r p => e ∈ parents d ∧ e ≠ (r, p)
  end.
Proof. destruct m; simpl; set_solver. Qed.

Lemma apply_edge_other m d e :
  e ≠ edge_of m → e ∈ parents (apply_edge m d) ↔ e ∈ parents d.
Proof. rewrite elem_of_apply_edge. destruct m; simpl; intros Hne; tauto. Qed.

Lemma apply_edge_parents_frame m d d' :
  parents d' = parents d → parents (apply_edge m d') = parents (apply_edge m d).
Proof. destruct m; simpl; by intros ->. Qed.

Lemma apply_edge_related m d x :
  x ≠ mutated_role m →
  related (parents (apply_edge m d)) x = related (parents d) x.
Proof.
  intros Hx. apply set_eq; intros a. rewrite !elem_of_related.
  apply apply_edge_other. destruct m; simpl in *; congruence.
Qed.

Lemma apply_edge_consistent_at m d x :
  x ≠ mutated_role m → consistent_at d x → consistent_at (apply_edge m d) x.
Proof.
  unfold consistent_at, stored_ancestors, actual_ancestors. intros Hx Hc.
  by rewrite apply_edge_ancestors, apply_edge_related.
Qed.

Lemma apply_edge_in_roles m d :
  valid_mutation d m → parents_in_roles d → parents_in_roles (apply_edge m d).
Proof.
  intros [Hr Hp] Hfk e He. rewrite apply_edge_role_ids.
  apply elem_of_apply_edge in He. destruct m; simpl in *.
  - destruct He as [He | ->]; [by apply Hfk | done].
  - destruct He as [He _]. by apply Hfk.
Qed.

Lemma valid_mutation_frame d d' m :
  roles d' = roles d → valid_mutation d m → valid_mutation d' m.
Proof. unfold valid_mutation, role_ids. by intros ->. Qed.

Lemma parents_in_roles_frame d d' :
  roles d' = roles d → parents d' = parents d →
  parents_in_roles d → parents_in_roles d'.
Proof. unfold parents_in_roles, role_ids. by intros -> ->. Qed.

Lemma acyclic_along_frame ms : ∀ d d',
  parents d' = parents d → acyclic_along ms d → acyclic_along ms d'.
Proof.
  induction ms as [|m ms IH]; intros d d' Hp [Hacy Hrest]; simpl.
  - split; [by eapply acyclic_frame | done].
  - split; [by eapply acyclic_frame|].
    eapply IH; [|exact Hrest]. by apply apply_edge_parents_frame.
Qed.

Lemma apply_edges_parents_frame ms : ∀ d d',
  parents d' = parents d → parents (apply_edges ms d') = parents (apply_edges ms d).
Proof.
  induction ms as [|m ms IH]; intros d d' Hp; simpl; [done|].
  apply IH. by apply apply_edge_parents_frame.
Qed.

Lemma apply_edges_roles ms : ∀ d, roles (apply_edges ms d) = roles d.
Proof.
  induction ms as [|m ms IH]; intros d; simpl; [done|].
  by rewrite IH, apply_edge_roles.
Qed.

Lemma apply_edges_ancestors ms : ∀ d, ancestors (apply_edges ms d) = ancestors d.
Proof.
  induction ms as [|m ms IH]; intros d; simpl; [done|].
  by rewrite IH, apply_edge_ancestors.
Qed.

Lemma apply_edges_consistent_at ms : ∀ d x,
  x ∉ mutated_role <$> ms → consistent_at d x → consistent_at (apply_edges ms d) x.
Proof.
  induction ms as [|m ms IH]; intros d x Hx Hc; simpl; [done|].
  apply not_elem_of_cons in Hx as [Hne Hx].
  apply IH; [done|]. by apply apply_edge_consistent_at.
Qed.

Lemma apply_edges_in_roles ms : ∀ d,
  Forall (valid_mutation d) ms → parents_in_roles d →
  parents_in_roles (apply_edges ms d).
Proof.
  induction ms as [|m ms IH]; intros d Hv Hfk; simpl; [done|].
  inversion Hv as [|? ? Hm Hms]; subst.
  apply IH; [|by apply apply_edge_in_roles].
  eapply Forall_impl; [exact Hms|]. intros m'.
  apply valid_mutation_frame. by rewrite apply_edge_roles.
Qed.

Lemma acyclic_along_final ms : ∀ d, acyclic_along ms d → acyclic (apply_edges ms d).
Proof.
  induction ms as [|m ms IH]; intros d [Hacy Hrest]; simpl; [done|]. by apply IH.
Qed.

(** ** Mutations applied one by one, and inside a batch *)

Lemma run_mutations_seq fuel ms : ∀ s,
  getattr_flag (tls s) = false →
  consistent (db s) → parents_in_roles (db s) →
  Forall (valid_mutation (db s)) ms →
  acyclic_along ms (db s) →
  (length (roles (db s)) < fuel)%nat →
  ∃ s', run_mutations fuel ms s = Ok s'
      ∧ tls s' = tls s
      ∧ roles (db s') = roles (db s)
      ∧ parents (db s') = parents (apply_edges ms (db s))
      ∧ permissions (db s') = permissions (db s)
      ∧ consistent (db s')
      ∧ ∀ x, x ∉ role_ids (db s) →
             stored_ancestors (db s') x = stored_ancestors (db s) x.
Proof.
  induction ms as [|m ms IH]; intros s Hf Hcons Hfk Hv [Hacy Hrest] Hfuel; simpl.
  { exists s. repeat split; done. }
  inversion Hv as [|? ? Hm Hms]; subst.
  set (s1 := with_db s (apply_edge m (db s))).
  assert (Hf1 : getattr_flag (tls s1) = false) by done.
  assert (Hacy1 : acyclic (db s1)) by (by destruct ms; destruct Hrest).
  assert (Hfuel1 : (length (roles (db s1)) < fuel)%nat).
  { simpl. by rewrite apply_edge_roles. }
  destruct (rebuild_terminates fuel (mutated_role m) s1 Hf1 Hacy1 Hfuel1) as [s2 Hrun].
  pose proof (rebuild_same_frame _ _ _ _ Hf1 Hrun) as (Htls & Hroles & Hpar & _ & Hperm).
  pose proof (rebuild_fixes _ _ _ _ Hf1 Hrun) as Hfix.
  pose proof (rebuild_outside_roles _ _ _ _ Hf1 Hrun) as Hout.
  simpl in Hroles, Hpar, Hperm, Htls.
  rewrite apply_edge_roles in Hroles. rewrite apply_edge_permissions in Hperm.
  assert (Hids : role_ids (db s2) = role_ids (db s)).
  { unfold role_ids. by rewrite Hroles. }
  destruct (IH s2) as (s' & Hs' & Htls' & Hroles' & Hpar' & Hperm' & Hcons' & Hout').
  - by rewrite Htls.
  - intros x Hx. rewrite Hids in Hx. apply Hfix.
    + simpl. by rewrite apply_edge_role_ids.
    + destruct (decide (x = mutated_role m)) as [|Hne]; [by left|]. right.
      simpl. apply apply_edge_consistent_at; [done|]. by apply Hcons.
  - eapply parents_in_roles_frame; [| exact Hpar |].
    + simpl. by rewrite Hroles, apply_edge_roles.
    + by apply apply_edge_in_roles.
  - eapply Forall_impl; [exact Hms|]. intros m'. by apply valid_mutation_frame.
  - eapply acyclic_along_frame; [exact Hpar|]. exact Hrest.
  - by rewrite Hroles.
  - exists s'. unfold mutate. fold s1. rewrite Hrun. simpl.
    split; [done|]. split; [congruence|]. split; [congruence|].
    split; [|split; [congruence|split; [done|]]].
    + rewrite Hpar'. by apply apply_edges_parents_frame.
    + intros x Hx. rewrite Hout' by by rewrite Hids.
      rewrite Hout.
      * unfold stored_ancestors. simpl. by rewrite apply_edge_ancestors.
      * intros ->. apply Hx. destruct Hm as [Hm _]. by destruct m.
      * simpl. by rewrite apply_edge_role_ids.
Qed.

Lemma run_mutations_batch fuel ms : ∀ s q,
  getattr_flag (tls s) = true →
  roles_needing_rebuilding (tls s) = Some q →
  (0 < fuel)%nat →
  ∃ s', run_mutations fuel ms s = Ok s'
      ∧ db s' = apply_edges ms (db s)
      ∧ batch_role_rebuilding (tls s') = batch_role_rebuilding (tls s)
      ∧ roles_needing_rebuilding (tls s')
        = Some (q ∪ list_to_set (mutated_role <$> ms)).
Proof.
  induction ms as [|m ms IH]; intros s q Hf Hq Hfuel; simpl.
  { exists s. repeat split; try done. rewrite Hq. f_equal. set_solver. }
  unfold mutate.
  rewrite (rebuild_deferred fuel (mutated_role m) _ q) by done. simpl.
  edestruct (IH (emit (Deferred (mutated_role m))
                   (with_tls (with_db s (apply_edge m (db s)))
                      (mkTLS (batch_role_rebuilding (tls s))
                         (Some (q ∪ {[mutated_role m]}))))))
    as (s' & Hs' & Hdb & Hflag & Hqueue); [exact Hf | reflexivity | done |].
  exists s'. split; [exact Hs'|]. split; [exact Hdb|]. split; [exact Hflag|].
  rewrite Hqueue. f_equal. set_solver.
Qed.

(** ** Orders of application that agree on every edge *)

Lemma present_after_iff ops (A B : Prop) :
  (A ↔ B) → present_after ops A ↔ present_after ops B.
Proof. destruct ops as [|[] ops]; simpl; tauto. Qed.

Lemma elem_of_apply_edges ms : ∀ d e,
  e ∈ parents (apply_edges ms d) ↔
  present_after (filter (λ m, edge_of m = e) ms) (e ∈ parents d).
Proof.
  induction ms as [|m ms IH]; intros d e; [done|].
  change (apply_edges (m :: ms) d) with (apply_edges ms (apply_edge m d)).
  rewrite IH. rewrite filter_cons. case_decide as He.
  - destruct m as [r p | r p]; simpl in *; subst e;
      apply present_after_iff; set_solver.
  - apply present_after_iff. by apply apply_edge_other.
Qed.

Lemma filter_edge_nil (e : Z * Z) (ms : list mutation) :
  e ∉ edge_of <$> ms → filter (λ m, edge_of m = e) ms = [].
Proof.
  induction ms as [|m ms IH]; [done|]. intros [Hne Hrest]%not_elem_of_cons.
  rewrite filter_cons. rewrite decide_False by done. by apply IH.
Qed.

Lemma respects_causality_all ms ms' e :
  respects_causality ms ms' → same_order_on e ms ms'.
Proof.
  intros Hall. destruct (decide (e ∈ edge_of <$> (ms ++ ms'))) as [Hin | Hnin].
  - apply list_elem_of_fmap in Hin as (m & -> & Hm).
    unfold respects_causality in Hall. rewrite Forall_forall in Hall. by apply Hall.
  - rewrite fmap_app in Hnin. apply not_elem_of_app in Hnin as [H1 H2].
    unfold same_order_on. by rewrite !filter_edge_nil.
Qed.

Lemma respects_causality_parents ms ms' d :
  respects_causality ms ms' →
  parents (apply_edges ms d) = parents (apply_edges ms' d).
Proof.
  intros Hall. apply set_eq; intros e. rewrite !elem_of_apply_edges.
  by rewrite (respects_causality_all ms ms' e Hall).
Qed.

Lemma respects_causality_elem ms ms' m :
  respects_causality ms ms' → m ∈ ms' → m ∈ ms.
Proof.
  intros Hall Hm. pose proof (respects_causality_all ms ms' (edge_of m) Hall) as Hsame.
  assert (Hin : m ∈ filter (λ m', edge_of m' = edge_of m) ms').
  { by apply list_elem_of_filter. }
  rewrite <- Hsame in Hin. by apply list_elem_of_filter in Hin as [_ ?].
Qed.

Lemma closure_at_stored_eq d d' r :
  parents d' = parents d → closure_at d r → closure_at d' r →
  stored_ancestors d' r = stored_ancestors d r.
Proof.
  intros Hp Hc Hc'. apply set_eq; intros a.
  rewrite (Hc a), (Hc' a). by rewrite (parent_of_frame d d').
Qed.

(** The store a batch over [ms] leaves behind. *)
Lemma batch_run fuel ms s :
  getattr_flag (tls s) = false →
  consistent (db s) → parents_in_roles (db s) →
  Forall (valid_mutation (db s)) ms →
  acyclic (apply_edges ms (db s)) →
  (length (roles (db s)) < fuel)%nat →
  ∃ sb, batch_role_ancestor_rebuilding fuel (run_block (run_mutations fuel ms)) s
        = (sb, None)
      ∧ getattr_flag (tls sb) = false
      ∧ roles_needing_rebuilding (tls sb) = None
      ∧ roles (db sb) = roles (db s)
      ∧ parents (db sb) = parents (apply_edges ms (db s))
      ∧ consistent (db sb)
      ∧ ∀ x, x ∉ role_ids (db s) →
             stored_ancestors (db sb) x = stored_ancestors (db s) x.
Proof.
  intros Hf Hcons Hfk Hv Hacy Hfuel.
  set (s0 := with_tls s (mkTLS (Some true) (Some ∅))).
  destruct (run_mutations_batch fuel ms s0 ∅) as (s1 & Hbody & Hdb1 & _ & Hq1);
    [done | done | lia |].
  change (db s0) with (db s) in Hdb1.
  assert (Hroles1 : roles (db s1) = roles (db s)) by by rewrite Hdb1, apply_edges_roles.
  assert (Hids1 : role_ids (db s1) = role_ids (db s)) by (unfold role_ids; by rewrite Hroles1).
  destruct (flush_completes fuel s1 _ Hq1) as (s2 & k & Hrun & Hexit & Htls2 & Hfr & _ & _ & Hfix).
  { by rewrite Hdb1. }
  { by rewrite Hroles1. }
  destruct Hfr as (_ & Hroles2 & Hpar2 & _).
  change (db (flag_restored false s1)) with (db s1) in Hroles2, Hpar2.
  exists (with_tls s2 (mkTLS (batch_role_rebuilding (tls s2)) None)).
  split; [|split; [|split; [|split; [|split; [|split]]]]].
  - unfold batch_role_ancestor_rebuilding, batch_enter. rewrite Hf. fold s0.
    unfold run_block. rewrite Hbody, Hexit. done.
  - simpl. by rewrite Htls2.
  - done.
  - simpl. congruence.
  - simpl. by rewrite Hpar2, Hdb1.
  - intros x Hx. simpl in *.
    assert (Hx1 : x ∈ role_ids (db s1)).
    { unfold role_ids in *. by rewrite <- Hroles2. }
    apply Hfix; [done|].
    destruct (decide (x ∈ mutated_role <$> ms)) as [Hin | Hnin].
    + left. apply elem_of_union. right. by apply elem_of_list_to_set.
    + right. rewrite Hdb1. apply apply_edges_consistent_at; [done|].
      apply Hcons. by rewrite <- Hids1.
  - intros x Hx. simpl.
    assert (Hoff : getattr_flag (tls (flag_restored false s1)) = false) by done.
    pose proof (for_each_rebuild_steps _ _ _ _ _
                  (λ self a b Ha Hr, rebuild_outside_roles fuel self a b Ha Hr)
                  Hoff Hrun) as Hsteps.
    rewrite (steps_outside_roles _ _ _ Hsteps).
    + change (db (flag_restored false s1)) with (db s1).
      unfold stored_ancestors. by rewrite Hdb1, apply_edges_ancestors.
    + intros c Hc. unfold refetch in Hc. by apply list_elem_of_filter in Hc as [_ ?].
    + change (db (flag_restored false s1)) with (db s1). by rewrite Hids1.
Qed.

(** C5: from a consistent store, applying the mutations inside one batch
    scope and flushing at its close leaves the same ancestor table as applying
    them one by one with no batch active, in any order that keeps the order
    of the mutations of each edge, as long as the one-by-one run keeps the
    graph acyclic; in both runs every role ends with its true closure. *)
Theorem batch_equals_sequential fuel ms ms' s :
  getattr_flag (tls s) = false →
  all_consistent (db s) →
  parents_in_roles (db s) →
  Forall (valid_mutation (db s)) ms →
  respects_causality ms ms' →
  acyclic_along ms' (db s) →
  (length (roles (db s)) < fuel)%nat →
  ∃ sb ss,
    batch_role_ancestor_rebuilding fuel (run_block (run_mutations fuel ms)) s = (sb, None)
    ∧ run_mutations fuel ms' s = Ok ss
    ∧ parents (db sb) = parents (db ss)
    ∧ ancestors (db sb) = ancestors (db ss)
    ∧ ∀ r, r ∈ role_ids (db s) → closure_at (db sb) r ∧ closure_at (db ss) r.
Proof.
  intros Hf Hcons%all_consistent_forall Hfk Hv Hcau Hacy Hfuel.
  assert (Hv' : Forall (valid_mutation (db s)) ms').
  { rewrite Forall_forall in Hv |- *. intros m Hm. apply Hv.
    by apply (respects_causality_elem ms ms'). }
  pose proof (respects_causality_parents ms ms' (db s) Hcau) as Hpeq.
  pose proof (acyclic_along_final _ _ Hacy) as Hfinal.
  destruct (batch_run fuel ms s Hf Hcons Hfk Hv) as
    (sb & Hb & _ & _ & Hrolesb & Hparb & Hconsb & Houtb); [|done|].
  { eapply acyclic_frame; [exact Hpeq | exact Hfinal]. }
  destruct (run_mutations_seq fuel ms' s Hf Hcons Hfk Hv' Hacy Hfuel) as
    (ss & Hs & _ & Hroless & Hpars & _ & Hconss & Houts).
  assert (Hpp : parents (db sb) = parents (db ss)) by congruence.
  assert (Hclo : ∀ r, r ∈ role_ids (db s) → closure_at (db sb) r ∧ closure_at (db ss) r).
  { intros r Hr. split.
    - apply consistent_closure; [done | | | ].
      + eapply acyclic_frame; [|exact Hfinal]. congruence.
      + apply (parents_in_roles_frame (apply_edges ms (db s)));
          [by rewrite apply_edges_roles | exact Hparb |].
        by apply apply_edges_in_roles.
      + unfold role_ids. by rewrite Hrolesb.
    - apply consistent_closure; [done | | | ].
      + eapply acyclic_frame; [exact Hpars | exact Hfinal].
      + apply (parents_in_roles_frame (apply_edges ms' (db s)));
          [by rewrite apply_edges_roles | exact Hpars |].
        by apply apply_edges_in_roles.
      + unfold role_ids. by rewrite Hroless. }
  exists sb, ss. split; [done|]. split; [done|]. split; [done|]. split; [|done].
  apply set_eq; intros [x a]. rewrite <- !elem_of_stored.
  destruct (decide (x ∈ role_ids (db s))) as [Hx | Hx].
  - destruct (Hclo x Hx) as [Hcb Hcs].
    by rewrite (closure_at_stored_eq (db ss) (db sb) x Hpp Hcs Hcb).
  - by rewrite Houtb, Houts.
Qed.

(** ** Adding a parent edge *)

Lemma max_over_mono (sel sel' : RolePermission → Prop) col m m' :
  (∀ p, sel p → sel' p) → max_over sel col m → max_over sel' col m' → m ≤ m'.
Proof.
  intros Hsub [(p & Hp & <-) _] [_ Hub]. apply Hub. by apply Hsub.
Qed.

Lemma flags_max_over_le (sel sel' : RolePermission → Prop) a b :
  (∀ p, sel p → sel' p) →
  flags_max_over sel a → flags_max_over sel' b → perm_le (Some a) (Some b).
Proof.
  intros Hsub (A1 & A2 & A3 & A4 & A5 & A6 & A7 & A8)
              (B1 & B2 & B3 & B4 & B5 & B6 & B7 & B8).
  unfold perm_le.
  repeat split;
    match goal with
    | HA : ∃ m, ?f a = Some m ∧ _, HB : ∃ m, ?f b = Some m ∧ _
      |- flag_le (?f a) (?f b) =>
        destruct HA as (m & -> & HmA); destruct HB as (m' & -> & HmB);
        simpl; eapply (max_over_mono sel sel'); [exact Hsub | exact HmA | exact HmB]
    end.
Qed.

Lemma role_permissions_mono d d' resource role :
  permissions d' = permissions d →
  (∀ x, stored_ancestors d x ⊆ stored_ancestors d' x) →
  perm_le (get_role_permissions_on_resource d resource role)
          (get_role_permissions_on_resource d' resource role).
Proof.
  intros Hperm Hsub.
  assert (Hsel : ∀ p, role_selected d resource role p → role_selected d' resource role p).
  { intros p (Hp & Hres & Hanc). split; [by rewrite Hperm|]. split; [done|].
    by apply Hsub. }
  destruct (query_outcome _ _ (elem_of_role_rows d resource role)) as (_ & Hsome & _).
  destruct (query_outcome _ _ (elem_of_role_rows d' resource role))
    as (Hnone' & Hsome' & _).
  unfold get_role_permissions_on_resource in *.
  destruct (none_if_no_read (aggregate (role_rows d resource role)))
    as [a|] eqn:Ha; [|done].
  pose proof (Hsome a eq_refl) as Hmax.
  destruct (none_if_no_read (aggregate (role_rows d' resource role)))
    as [b|] eqn:Hb.
  - by apply (flags_max_over_le _ _ a b Hsel Hmax), Hsome'.
  - exfalso. apply (proj1 Hnone' eq_refl).
    destruct Hmax as ((m & _ & (p & Hp & _) & _) & _). exists p. by apply Hsel.
Qed.

(** C8: on a consistent store over an acyclic graph, adding a parent edge to
    [R] and rebuilding only adds to the stored ancestors of [R] (and of every
    other role), and so every flag of [get_role_permissions_on_resource] for
    [R] is at least what it was, the absence value counting below every
    record. *)
Theorem add_parent_only_adds fuel R P s resource :
  getattr_flag (tls s) = false →
  all_consistent (db s) →
  parents_in_roles (db s) →
  valid_mutation (db s) (AddParent R P) →
  acyclic (apply_edge (AddParent R P) (db s)) →
  (length (roles (db s)) < fuel)%nat →
  ∃ s',
    mutate fuel (AddParent R P) s = Ok s'
    ∧ parents (db s') = parents (db s) ∪ {[ (R, P) ]}
    ∧ stored_ancestors (db s) R ⊆ stored_ancestors (db s') R
    ∧ (∀ x, stored_ancestors (db s) x ⊆ stored_ancestors (db s') x)
    ∧ perm_le (get_role_permissions_on_resource (db s) resource R)
              (get_role_permissions_on_resource (db s') resource R).
Proof.
  intros Hf Hcons%all_consistent_forall Hfk Hv Hacy' Hfuel.
  assert (Hsubg : parents (db s) ⊆ parents (apply_edge (AddParent R P) (db s))).
  { simpl. set_solver. }
  assert (Hacy : acyclic (db s)) by by eapply acyclic_subgraph.
  destruct (run_mutations_seq fuel [AddParent R P] s Hf Hcons Hfk) as
    (s' & Hrun & _ & Hroles & Hpar & Hperm & Hcons' & Hout); [by constructor | done | done |].
  simpl in Hrun.
  change (apply_edges [AddParent R P] (db s))
    with (apply_edge (AddParent R P) (db s)) in Hpar.
  destruct (mutate fuel (AddParent R P) s) as [s1|] eqn:Hmut; [|done].
  simpl in Hrun. injection Hrun as ->.
  assert (Hall : ∀ x, stored_ancestors (db s) x ⊆ stored_ancestors (db s') x).
  { intros x a Ha. destruct (decide (x ∈ role_ids (db s))) as [Hx | Hx].
    - apply (consistent_closure (db s') Hcons').
      + eapply acyclic_frame; [exact Hpar | exact Hacy'].
      + apply (parents_in_roles_frame (apply_edge (AddParent R P) (db s)));
          [done | exact Hpar | by apply apply_edge_in_roles].
      + unfold role_ids. by rewrite Hroles.
      + apply (rtc_parent_mono (db s)); [by rewrite Hpar|].
        by apply (consistent_closure (db s) Hcons Hacy Hfk x Hx).
    - by rewrite Hout. }
  exists s'. split; [done|]. split; [exact Hpar|]. split; [by apply Hall|].
  split; [exact Hall|]. by apply role_permissions_mono.
Qed.

(** ** Checks on the sample stores *)

Example scenario_alice_on_x :
  get_user_permissions_on_resource d_org resource_x alice
  = Some (mkAggregate (Some 1) (Some 1) (Some 0) (Some 1) (Some 1)
            (Some 0) (Some 0) (Some 0)).
Proof. vm_compute. reflexivity. Qed.

Example scenario_two_grants :
  get_user_permissions_on_resource
    (mkDB [plain_role 3] ∅ {[ (3, 3) ]} {[ (3, 50) ]}
          [grant 3 resource_x 0 1 0 0 0; grant 3 resource_x 0 0 1 0 0])
    resource_x alice
  = Some (mkAggregate (Some 0) (Some 1) (Some 1) (Some 0) (Some 0)
            (Some 0) (Some 0) (Some 0)).
Proof. vm_compute. reflexivity. Qed.

Example rebuild_of_team_reaches_its_child :
  log s_chain_rebuilt = [Recomputed 2; Stored 2; Recomputed 3; Stored 3]
  ∧ stored_ancestors (db s_chain_rebuilt) 2 = {[ 2; 1 ]}
  ∧ stored_ancestors (db s_chain_rebuilt) 3 = {[ 3; 2; 1 ]}.
Proof. repeat split; vm_compute; reflexivity. Qed.

Example scope_flushes_the_deferred_role :
  log (batch_role_ancestor_rebuilding 4 deferring_body s_chain).1
  = [Deferred 2; Recomputed 2; Stored 2; Recomputed 3; Stored 3]
  ∧ roles_needing_rebuilding (tls (batch_role_ancestor_rebuilding 4 deferring_body s_chain).1)
    = None.
Proof. split; vm_compute; reflexivity. Qed.

Lemma d_chain_acyclic : acyclic d_chain.
Proof. apply (ranked_acyclic _ rank_down). by_eval. Qed.

Lemma rebuild_establishes_invariant_witness :
  ∃ s' k,
    rebuild_role_ancestor_list 4 2 s_chain = Ok s'
    ∧ parents (db s') = parents (db s_chain)
    ∧ stored_ancestors (db s') 2
      = {[2]} ∪ set_bind (stored_ancestors (db s')) (direct_parents (db s') 2)
    ∧ (∀ P, P ∈ direct_parents (db s_chain) 2 →
         stored_ancestors (db s') P = stored_ancestors (db s_chain) P)
    ∧ ((∀ P, P ∈ direct_parents (db s_chain) 2 → closure_at (db s_chain) P) →
         closure_at (db s') 2)
    ∧ appended s_chain s' k
    ∧ (stored_ancestors (db s') 2 ≠ stored_ancestors (db s_chain) 2 →
         ∀ c, c ∈ role_ids (db s_chain) → (c, 2) ∈ parents (db s_chain) →
              Recomputed c ∈ k).
Proof.
  apply (rebuild_establishes_invariant 4 2 s_chain).
  - reflexivity.
  - apply (ranked_acyclic _ rank_down). by_eval.
  - by_eval.
  - simpl. lia.
Defined.

Lemma rebuild_terminates_on_dag_witness :
  ∃ s' k,
    rebuild_role_ancestor_list 4 2 s_chain = Ok s'
    ∧ appended s_chain s' (Recomputed 2 :: k)
    ∧ (actual_ancestors (db s_chain) 2 = stored_ancestors (db s_chain) 2 →
         k = [] ∧ db s' = db s_chain)
    ∧ (actual_ancestors (db s_chain) 2 ≠ stored_ancestors (db s_chain) 2 →
         stored_ancestors (db s') 2 ≠ stored_ancestors (db s_chain) 2
         ∧ Stored 2 ∈ k).
Proof.
  apply (rebuild_terminates_on_dag 4 2 s_chain).
  - reflexivity.
  - apply (ranked_acyclic _ rank_down). by_eval.
  - simpl. lia.
Defined.

(** C6, the part that fails: the graph of [s_cycle] has a cycle and the
    rebuild of role 1 completes within a stack of four calls. *)
Lemma rebuild_on_cycle_terminates :
  ¬ acyclic (db s_cycle)
  ∧ ∃ s', rebuild_role_ancestor_list 4 1 s_cycle = Ok s'.
Proof.
  split.
  - intros Hacy. apply (Hacy 1).
    apply (tc_l _ 1 2 1); [|apply tc_once]; unfold parent_of; by_eval.
  - eexists. vm_compute. reflexivity.
Qed.

Lemma rebuild_twice_is_noop_witness :
  actual_ancestors (db s_chain_rebuilt) 2 = stored_ancestors (db s_chain_rebuilt) 2
  ∧ ∃ s'', rebuild_role_ancestor_list 1 2 s_chain_rebuilt = Ok s''
         ∧ db s'' = db s_chain_rebuilt
         ∧ stored_ancestors (db s'') 2 = stored_ancestors (db s_chain_rebuilt) 2
         ∧ log s'' = log s_chain_rebuilt ++ [Recomputed 2].
Proof.
  apply (rebuild_twice_is_noop 4 1 2 s_chain s_chain_rebuilt).
  - reflexivity.
  - by_eval.
  - lia.
  - vm_compute. reflexivity.
Defined.


Lemma batch_exit_runs_on_exception_witness :
  ∃ s2 s' k,
    for_each (rebuild_role_ancestor_list 4) (refetch (db s_after_failure) {[2]})
      (flag_restored false s_after_failure) = Ok s2
    ∧ batch_role_ancestor_rebuilding 4 failing_body s_chain = (s', Some BodyError)
    ∧ db s' = db s2
    ∧ roles_needing_rebuilding (tls s') = None
    ∧ getattr_flag (tls s') = getattr_flag (tls s_chain)
    ∧ log s' = log s_after_failure ++ k
    ∧ ∀ r, r ∈ ({[2]} : gset Z) → r ∈ role_ids (db s_after_failure) → Recomputed r ∈ k.
Proof.
  apply (batch_exit_runs_on_exception 4 failing_body s_chain s_after_failure
           BodyError {[2]}).
  - reflexivity.
  - vm_compute. reflexivity.
  - vm_compute. reflexivity.
  - apply (ranked_acyclic _ rank_down). by_eval.
  - simpl. lia.
Defined.

Lemma batch_equals_sequential_witness :
  ∃ sb ss,
    batch_role_ancestor_rebuilding 4
      (run_block (run_mutations 4 [AddParent 2 3; AddParent 1 2; RemoveParent 2 3]))
      s_flat = (sb, None)
    ∧ run_mutations 4 [AddParent 1 2; AddParent 2 3; RemoveParent 2 3] s_flat = Ok ss
    ∧ parents (db sb) = parents (db ss)
    ∧ ancestors (db sb) = ancestors (db ss)
    ∧ ∀ r, r ∈ role_ids (db s_flat) → closure_at (db sb) r ∧ closure_at (db ss) r.
Proof.
  apply (batch_equals_sequential 4
           [AddParent 2 3; AddParent 1 2; RemoveParent 2 3]
           [AddParent 1 2; AddParent 2 3; RemoveParent 2 3] s_flat).
  - reflexivity.
  - by_eval.
  - by_eval.
  - by_eval.
  - by_eval.
  - simpl. repeat split; apply (ranked_acyclic _ rank_up); by_eval.
  - simpl. lia.
Defined.

Lemma add_parent_only_adds_witness :
  ∃ s',
    mutate 5 (AddParent 2 4) s_org = Ok s'
    ∧ parents (db s') = parents (db s_org) ∪ {[ (2, 4) ]}
    ∧ stored_ancestors (db s_org) 2 ⊆ stored_ancestors (db s') 2
    ∧ (∀ x, stored_ancestors (db s_org) x ⊆ stored_ancestors (db s') x)
    ∧ perm_le (get_role_permissions_on_resource (db s_org) resource_x 2)
              (get_role_permissions_on_resource (db s') resource_x 2).
Proof.
  apply (add_parent_only_adds 5 2 4 s_org resource_x).
  - reflexivity.
  - by_eval.
  - by_eval.
  - by_eval.
  - apply (ranked_acyclic _ (λ z, if decide (z = 4) then 0%nat else rank_down z)). by_eval.
  - simpl. lia.
Defined.

(** C2, as stated, fails: [org] is an ancestor of the role [alice] holds and
    has a read grant on Y, so the selection of the specification returns a
    record, while the query returns the absence value. *)
Lemma user_query_skips_ancestor_grants :
  (4 ∉ accessor_roles d_org alice)
  ∧ 1 ∈ stored_ancestors d_org 3
  ∧ spec_permissionsOf d_org resource_y alice
    = Some (mkAggregate (Some 0) (Some 1) (Some 0) (Some 0) (Some 0)
              (Some 0) (Some 0) (Some 0))
  ∧ get_user_permissions_on_resource d_org resource_y alice = None.
Proof.
  split; [by_eval|]. split; [by_eval|]. split; vm_compute; reflexivity.
Qed.

(** C3, as stated, fails: the grant of [project-admin] on X reaches [org],
    which is not below [project-admin], and the grant of [org] on Y does not
    reach [project-admin]. *)
Lemma role_query_skips_ancestor_grants :
  1 ∈ stored_ancestors d_org 3
  ∧ (3 ∉ stored_ancestors d_org 1)
  ∧ spec_permissionsOfRole d_org resource_y 3
    = Some (mkAggregate (Some 0) (Some 1) (Some 0) (Some 0) (Some 0)
              (Some 0) (Some 0) (Some 0))
  ∧ get_role_permissions_on_resource d_org resource_y 3 = None
  ∧ spec_permissionsOfRole d_org resource_x 1 = None
  ∧ get_role_permissions_on_resource d_org resource_x 1
    = Some (mkAggregate (Some 1) (Some 1) (Some 0) (Some 1) (Some 1)
              (Some 0) (Some 0) (Some 0)).
Proof.
  split; [by_eval|]. split; [by_eval|].
  repeat split; vm_compute; reflexivity.
Qed.

(** ** Further properties of the closure engine *)

(** X1: when every role but [R] satisfies the invariant, a rebuild of [R]
    outside a batch restores it for every role, and over an acyclic graph
    with sound parent rows every role then holds its true closure. *)
Theorem rebuild_repairs_whole_store fuel R s :
  getattr_flag (tls s) = false →
  acyclic (db s) →
  parents_in_roles (db s) →
  Forall (λ x, x ≠ R → consistent_at (db s) x) (role_ids (db s)) →
  (length (roles (db s)) < fuel)%nat →
  ∃ s', rebuild_role_ancestor_list fuel R s = Ok s'
      ∧ all_consistent (db s')
      ∧ ∀ r, r ∈ role_ids (db s') → closure_at (db s') r.
Proof.
  intros Hf Hacy Hfk Hothers Hfuel.
  destruct (rebuild_terminates fuel R s Hf Hacy Hfuel) as [s' Hrun].
  pose proof (rebuild_same_frame _ _ _ _ Hf Hrun) as (_ & Hroles & Hpar & _).
  pose proof (rebuild_fixes _ _ _ _ Hf Hrun) as Hfix.
  assert (Hids : role_ids (db s') = role_ids (db s)) by (unfold role_ids; by rewrite Hroles).
  assert (Hcons : consistent (db s')).
  { intros x Hx. rewrite Hids in Hx. apply Hfix; [done|].
    destruct (decide (x = R)) as [|Hne]; [by left|]. right.
    rewrite Forall_forall in Hothers. by apply Hothers. }
  exists s'. split; [done|]. split; [by apply all_consistent_forall|].
  apply consistent_closure; [done | by eapply acyclic_frame |].
  by apply (parents_in_roles_frame (db s)).
Qed.

(** X2: outside a batch a completed rebuild of [R] rewrites ancestor rows of
    [R] and of its descendants only: the thread-local state, the role,
    parent, member and permission tables and the ancestor rows of every
    other role are left as they were. *)
Theorem rebuild_touches_only_descendants fuel R s s' :
  getattr_flag (tls s) = false →
  rebuild_role_ancestor_list fuel R s = Ok s' →
  tls s' = tls s
  ∧ roles (db s') = roles (db s)
  ∧ parents (db s') = parents (db s)
  ∧ members (db s') = members (db s)
  ∧ permissions (db s') = permissions (db s)
  ∧ ∀ x, ¬ rtc (parent_of (db s)) x R →
         stored_ancestors (db s') x = stored_ancestors (db s) x.
Proof.
  intros Hf Hrun.
  destruct (rebuild_same_frame _ _ _ _ Hf Hrun) as (? & ? & ? & ? & ?).
  repeat split; try done.
  intros x Hx. by apply (rebuild_touches_below _ _ _ _ Hf Hrun).
Qed.

(** ** Further properties of the batch coordinator *)

Lemma for_each_deferred fuel l : ∀ s q,
  getattr_flag (tls s) = true →
  roles_needing_rebuilding (tls s) = Some q →
  (0 < fuel)%nat →
  ∃ s', for_each (rebuild_role_ancestor_list fuel) l s = Ok s'
      ∧ db s' = db s
      ∧ batch_role_rebuilding (tls s') = batch_role_rebuilding (tls s)
      ∧ roles_needing_rebuilding (tls s') = Some (q ∪ list_to_set l)
      ∧ log s' = log s ++ (Deferred <$> l).
Proof.
  induction l as [|x l IH]; intros s q Hf Hq Hfuel; simpl.
  { exists s. repeat split; try done.
    - rewrite Hq. f_equal. set_solver.
    - by rewrite app_nil_r. }
  rewrite (rebuild_deferred fuel x s q) by done. simpl.
  edestruct (IH (emit (Deferred x)
                   (with_tls s (mkTLS (batch_role_rebuilding (tls s))
                                  (Some (q ∪ {[x]}))))))
    as (s' & Hs' & Hdb & Hflag & Hqueue & Hlog); [exact Hf | reflexivity | done |].
  exists s'. split; [exact Hs'|]. split; [exact Hdb|]. split; [exact Hflag|]. split.
  - rewrite Hqueue. f_equal. set_solver.
  - rewrite Hlog. simpl. by rewrite <- app_assoc.
Qed.

(** What a flush leaves when every role that breaks the invariant is queued. *)
Lemma flush_repairs fuel s q :
  roles_needing_rebuilding (tls s) = Some q →
  acyclic (db s) → parents_in_roles (db s) →
  (∀ x, x ∈ role_ids (db s) → x ∈ q ∨ consistent_at (db s) x) →
  (length (roles (db s)) < fuel)%nat →
  ∃ s', batch_exit fuel false s = (s', None)
      ∧ tls s' = mkTLS (Some false) None
      ∧ roles (db s') = roles (db s)
      ∧ parents (db s') = parents (db s)
      ∧ permissions (db s') = permissions (db s)
      ∧ consistent (db s')
      ∧ (∀ r, r ∈ role_ids (db s) → closure_at (db s') r)
      ∧ (∀ x, x ∉ role_ids (db s) →
              stored_ancestors (db s') x = stored_ancestors (db s) x).
Proof.
  intros Hq Hacy Hfk Hqueued Hfuel.
  destruct (flush_completes fuel s q Hq Hacy Hfuel)
    as (s2 & k & Hrun & Hexit & Htls & Hfr & _ & _ & Hfix).
  destruct Hfr as (_ & Hroles & Hpar & _ & Hperm).
  change (db (flag_restored false s)) with (db s) in Hroles, Hpar, Hperm.
  assert (Hids : role_ids (db s2) = role_ids (db s)) by (unfold role_ids; by rewrite Hroles).
  assert (Hcons : consistent (db s2)).
  { intros x Hx. rewrite Hids in Hx. apply Hfix; [done|]. by apply Hqueued. }
  exists (with_tls s2 (mkTLS (batch_role_rebuilding (tls s2)) None)).
  split; [done|]. split; [by rewrite Htls|]. split; [done|]. split; [done|].
  split; [done|]. split; [done|]. split.
  - intros r Hr. simpl. apply consistent_closure; [done | by eapply acyclic_frame | | ].
    + by apply (parents_in_roles_frame (db s)).
    + by rewrite Hids.
  - intros x Hx. simpl.
    assert (Hoff : getattr_flag (tls (flag_restored false s)) = false) by done.
    pose proof (for_each_rebuild_steps _ _ _ _ _
                  (λ self a b Ha Hr, rebuild_outside_roles fuel self a b Ha Hr)
                  Hoff Hrun) as Hsteps.
    rewrite (steps_outside_roles _ _ _ Hsteps); [done | | done].
    intros c Hc. unfold refetch in Hc. by apply list_elem_of_filter in Hc as [_ ?].
Qed.

(** X3: a scope opened inside another scope is transparent: wrapping the body
    in a second [with batch_role_ancestor_rebuilding()] changes neither the
    final state nor the exception that escapes. *)
Theorem nested_batch_is_transparent fuel fuel' (body : block) s :
  batch_role_ancestor_rebuilding fuel (batch_role_ancestor_rebuilding fuel' body) s
  = batch_role_ancestor_rebuilding fuel body s.
Proof.
  unfold batch_role_ancestor_rebuilding at 1 3.
  destruct (batch_enter s) as [saved s0] eqn:Henter.
  assert (Hs0 : tls s0 = mkTLS (Some true)
                           (if saved then roles_needing_rebuilding (tls s) else Some ∅)).
  { unfold batch_enter in Henter. by injection Henter as <- <-. }
  unfold batch_role_ancestor_rebuilding, batch_enter, getattr_flag.
  rewrite Hs0. simpl.
  replace (with_tls s0 {| batch_role_rebuilding := Some true;
                          roles_needing_rebuilding :=
                            if saved then roles_needing_rebuilding (tls s) else Some ∅ |})
    with s0 by (destruct s0; simpl in *; by subst).
  destruct (body s0) as [s1 raised]. simpl.
  change (batch_exit fuel saved (flag_restored true s1))
    with (batch_exit fuel saved s1).
  destruct (batch_exit fuel saved s1) as [s2 [e|]]; done.
Qed.

(** X4: whatever the ancestor table holds, rebuilding every role inside one
    batch repairs it: over an acyclic graph with sound parent rows the scope
    ends without exception and every role holds its true closure. *)
Theorem rebuild_all_in_batch_repairs fuel s :
  getattr_flag (tls s) = false →
  acyclic (db s) →
  parents_in_roles (db s) →
  (length (roles (db s)) < fuel)%nat →
  ∃ s', batch_role_ancestor_rebuilding fuel
          (run_block (for_each (rebuild_role_ancestor_list fuel) (role_ids (db s)))) s
        = (s', None)
      ∧ roles (db s') = roles (db s)
      ∧ parents (db s') = parents (db s)
      ∧ roles_needing_rebuilding (tls s') = None
      ∧ all_consistent (db s')
      ∧ ∀ r, r ∈ role_ids (db s) → closure_at (db s') r.
Proof.
  intros Hf Hacy Hfk Hfuel.
  set (s0 := with_tls s (mkTLS (Some true) (Some ∅))).
  destruct (for_each_deferred fuel (role_ids (db s)) s0 ∅)
    as (s1 & Hbody & Hdb & _ & Hq & _); [done | done | lia |].
  change (db s0) with (db s) in Hdb.
  destruct (flush_repairs fuel s1 _ Hq) as
    (s' & Hexit & Htls & Hroles & Hpar & _ & Hcons & Hclo & _).
  - by rewrite Hdb.
  - by rewrite Hdb.
  - intros x Hx. left. rewrite Hdb in Hx. apply elem_of_union. right.
    by apply elem_of_list_to_set.
  - by rewrite Hdb.
  - exists s'. split; [|split; [congruence|split; [congruence|split; [by rewrite Htls|split]]]].
    + unfold batch_role_ancestor_rebuilding, batch_enter. rewrite Hf. fold s0.
      unfold run_block. rewrite Hbody, Hexit. done.
    + by apply all_consistent_forall.
    + intros r Hr. apply Hclo. by rewrite Hdb.
Qed.

(** X5: deferred rebuilds coalesce.  Inside a batch a run of calls leaves the
    store alone and queues the set of their roles; the list the flush works
    through holds every queued role that is in the role table exactly once,
    however often it was queued, and no id that is not in the table. *)
Theorem deferred_rebuilds_coalesce fuel l s q :
  getattr_flag (tls s) = true →
  roles_needing_rebuilding (tls s) = Some q →
  (0 < fuel)%nat →
  NoDup (role_ids (db s)) →
  ∃ s', for_each (rebuild_role_ancestor_list fuel) l s = Ok s'
      ∧ db s' = db s
      ∧ roles_needing_rebuilding (tls s') = Some (q ∪ list_to_set l)
      ∧ log s' = log s ++ (Deferred <$> l)
      ∧ NoDup (refetch (db s') (q ∪ list_to_set l))
      ∧ ∀ r, r ∈ refetch (db s') (q ∪ list_to_set l) ↔
             r ∈ role_ids (db s) ∧ (r ∈ q ∨ r ∈ l).
Proof.
  intros Hf Hq Hfuel Hnd.
  destruct (for_each_deferred fuel l s q Hf Hq Hfuel)
    as (s' & Hrun & Hdb & _ & Hqueue & Hlog).
  exists s'. split; [done|]. split; [done|]. split; [done|]. split; [done|].
  rewrite Hdb. split.
  - unfold refetch. by apply NoDup_filter.
  - intros r. unfold refetch.
    rewrite list_elem_of_filter, elem_of_union, elem_of_list_to_set. tauto.
Qed.

(** X6: the outcome of a flush does not depend on the order in which the
    store returns the role rows: when every role that breaks the invariant
    is queued, over an acyclic graph with sound parent rows, two stores that
    differ in the order of the role table end with the same ancestor table. *)
Theorem flush_order_is_irrelevant fuel s q (rs' : list Role) :
  roles_needing_rebuilding (tls s) = Some q →
  rs' ≡ₚ roles (db s) →
  acyclic (db s) →
  parents_in_roles (db s) →
  Forall (λ x, x ∈ q ∨ consistent_at (db s) x) (role_ids (db s)) →
  (length (roles (db s)) < fuel)%nat →
  ∃ s1 s2,
    batch_exit fuel false s = (s1, None)
    ∧ batch_exit fuel false (with_db s (with_roles (db s) rs')) = (s2, None)
    ∧ ancestors (db s1) = ancestors (db s2).
Proof.
  intros Hq Hperm Hacy Hfk Hqueued Hfuel.
  rewrite Forall_forall in Hqueued.
  set (d' := with_roles (db s) rs').
  assert (Hids : ∀ x, x ∈ role_ids d' ↔ x ∈ role_ids (db s)).
  { intros x. unfold role_ids, d'. simpl. by rewrite Hperm. }
  destruct (flush_repairs fuel s q Hq Hacy Hfk Hqueued Hfuel)
    as (s1 & Hexit1 & _ & _ & Hpar1 & _ & _ & Hclo1 & Hout1).
  destruct (flush_repairs fuel (with_db s d') q Hq) as
    (s2 & Hexit2 & _ & _ & Hpar2 & _ & _ & Hclo2 & Hout2).
  - exact Hacy.
  - intros e He. destruct (Hfk e He) as [H1 H2]. split; by apply Hids.
  - intros x Hx%Hids. by apply Hqueued.
  - simpl. by rewrite Hperm.
  - exists s1, s2. split; [done|]. split; [done|].
    apply set_eq; intros [x a]. rewrite <- !elem_of_stored.
    destruct (decide (x ∈ role_ids (db s))) as [Hx | Hx].
    + rewrite (closure_at_stored_eq (db s2) (db s1) x); [done | | | by apply Hclo1].
      * rewrite Hpar1, Hpar2. done.
      * apply Hclo2. by apply Hids.
    + rewrite Hout1 by done. rewrite Hout2; [done|].
      intros Hx'. by apply Hx, Hids.
Qed.

(** ** Ancestor test and visible roles *)

Lemma is_ancestor_of_stored d a b :
  is_ancestor_of d a b = true ↔ a ∈ stored_ancestors d b.
Proof.
  unfold is_ancestor_of. rewrite elem_of_stored.
  split; [apply bool_decide_eq_true_1 | apply bool_decide_eq_true_2].
Qed.

Lemma rtc_in_roles d c b :
  parents_in_roles d → c ∈ role_ids d → rtc (parent_of d) c b → b ∈ role_ids d.
Proof.
  intros Hfk Hc Hrtc. induction Hrtc as [|x y z Hxy _ IH]; [done|].
  apply IH. by apply (Hfk _ Hxy).
Qed.

(** X7: on a consistent store over an acyclic graph with sound parent rows,
    [a.is_ancestor_of(b)] holds exactly when [a] is reached from [b] along
    parent edges; it is reflexive, transitive and antisymmetric on roles. *)
Theorem is_ancestor_of_is_reachability d :
  all_consistent d →
  acyclic d →
  parents_in_roles d →
  (∀ a b, b ∈ role_ids d →
     is_ancestor_of d a b = true ↔ rtc (parent_of d) b a)
  ∧ (∀ b, b ∈ role_ids d → is_ancestor_of d b b = true)
  ∧ (∀ a b c, c ∈ role_ids d →
       is_ancestor_of d a b = true → is_ancestor_of d b c = true →
       is_ancestor_of d a c = true)
  ∧ (∀ a b, a ∈ role_ids d → b ∈ role_ids d →
       is_ancestor_of d a b = true → is_ancestor_of d b a = true → a = b).
Proof.
  intros Hcons%all_consistent_forall Hacy Hfk.
  assert (Hreach : ∀ a b, b ∈ role_ids d →
            is_ancestor_of d a b = true ↔ rtc (parent_of d) b a).
  { intros a b Hb. rewrite is_ancestor_of_stored.
    apply (consistent_closure d Hcons Hacy Hfk b Hb). }
  split; [exact Hreach|]. split; [|split].
  - intros b Hb. by apply Hreach.
  - intros a b c Hc Hab Hbc. apply Hreach in Hbc; [|done].
    assert (Hb : b ∈ role_ids d) by by eapply rtc_in_roles.
    apply Hreach in Hab; [|done]. apply Hreach; [done|]. by etrans.
  - intros a b Ha Hb Hab Hba.
    apply Hreach in Hab; [|done]. apply Hreach in Hba; [|done].
    apply rtc_tc in Hab as [Heq | Htc]; [done|].
    exfalso. apply (Hacy b). by eapply tc_rtc_r.
Qed.

(** X8: [visible_roles(user)] holds the roles that are an ancestor or a
    descendant, by the stored rows, of a role the user holds: none for a
    user without roles, every held role once the store is consistent, and
    the role of every grant that counts for the user in a permission query. *)
Theorem visible_roles_cover_held_and_granting d uid :
  (∀ r, r ∈ visible_roles d uid ↔
        r ∈ role_ids d
        ∧ ∃ h, h ∈ accessor_roles d (UserP uid)
               ∧ (is_ancestor_of d r h = true ∨ is_ancestor_of d h r = true))
  ∧ (accessor_roles d (UserP uid) = [] → visible_roles d uid = ∅)
  ∧ (all_consistent d →
       ∀ h, h ∈ accessor_roles d (UserP uid) → h ∈ visible_roles d uid)
  ∧ (grants_in_roles d →
       ∀ resource p, user_selected d resource (UserP uid) p →
                     perm_role p ∈ visible_roles d uid).
Proof.
  assert (Hspec : ∀ r, r ∈ visible_roles d uid ↔
            r ∈ role_ids d
            ∧ ∃ h, h ∈ accessor_roles d (UserP uid)
                   ∧ (is_ancestor_of d r h = true ∨ is_ancestor_of d h r = true)).
  { intros r. unfold visible_roles.
    rewrite elem_of_list_to_set, list_elem_of_filter, Exists_exists.
    setoid_rewrite is_ancestor_of_stored. setoid_rewrite elem_of_stored. tauto. }
  split; [exact Hspec|]. split; [|split].
  - intros Hnone. apply set_eq; intros r. rewrite Hspec, Hnone.
    split; [|by intros ?%not_elem_of_empty].
    intros (_ & h & Hh%elem_of_nil & _). done.
  - intros Hcons%all_consistent_forall h Hh. apply Hspec.
    assert (Hrole : h ∈ role_ids d).
    { simpl in Hh. by apply list_elem_of_filter in Hh as [_ ?]. }
    split; [done|]. exists h. split; [done|]. left.
    apply is_ancestor_of_stored, consistent_at_self. by apply Hcons.
  - intros Hfk resource p (Hp & _ & h & Hh & Hanc). apply Hspec. split.
    + unfold grants_in_roles in Hfk. rewrite Forall_forall in Hfk. by apply Hfk.
    + exists h. split; [done|]. right. by apply is_ancestor_of_stored.
Qed.

(** ** Further properties of the permission queries *)

Lemma outcome_le (rows rows' : list RolePermission) :
  (∀ p, p ∈ rows → p ∈ rows') →
  perm_le (none_if_no_read (aggregate rows)) (none_if_no_read (aggregate rows')).
Proof.
  intros Hsub.
  destruct (query_outcome rows (λ p, p ∈ rows)) as (_ & Hsome & _); [done|].
  destruct (query_outcome rows' (λ p, p ∈ rows')) as (Hnone' & Hsome' & _); [done|].
  destruct (none_if_no_read (aggregate rows)) as [a|] eqn:Ha; [|done].
  pose proof (Hsome a eq_refl) as Hmax.
  destruct (none_if_no_read (aggregate rows')) as [b|] eqn:Hb.
  - by apply (flags_max_over_le _ _ a b Hsub Hmax), Hsome'.
  - exfalso. apply (proj1 Hnone' eq_refl).
    destruct Hmax as ((m & _ & (p & Hp & _) & _) & _). exists p. by apply Hsub.
Qed.

Lemma user_selected_role_selected d resource user p :
  user_selected d resource user p ↔
  ∃ h, h ∈ accessor_roles d user ∧ role_selected d resource h p.
Proof. unfold user_selected, role_selected. naive_solver. Qed.

(** X9: a user has no permissions on a resource exactly when none of the
    directly-held roles has any, and otherwise every flag of the user is at
    least the flag that each held role gets from the role query. *)
Theorem user_permissions_cover_roles d resource user :
  (get_user_permissions_on_resource d resource user = None ↔
     ∀ h, h ∈ accessor_roles d user →
          get_role_permissions_on_resource d resource h = None)
  ∧ (∀ h, h ∈ accessor_roles d user →
       perm_le (get_role_permissions_on_resource d resource h)
               (get_user_permissions_on_resource d resource user)).
Proof.
  split.
  - destruct (query_outcome _ _ (user_rows_selected d resource user)) as (-> & _).
    split.
    + intros Hno h Hh.
      apply (query_outcome _ _ (elem_of_role_rows d resource h)).
      intros [p Hp]. apply Hno. exists p. apply user_selected_role_selected. eauto.
    + intros Hall [p (h & Hh & Hp)%user_selected_role_selected].
      destruct (query_outcome _ _ (elem_of_role_rows d resource h)) as ([Hno _] & _).
      apply (Hno (Hall h Hh)). by exists p.
  - intros h Hh. apply outcome_le. intros p Hp%elem_of_role_rows.
    apply user_rows_selected, user_selected_role_selected. eauto.
Qed.

Lemma flags_max_over_columns sel res cf :
  flags_max_over sel res → cf ∈ flag_columns →
  ∃ m, cf.2 res = Some m ∧ max_over sel cf.1 m.
Proof.
  intros (H1 & H2 & H3 & H4 & H5 & H6 & H7 & H8) Hcf.
  unfold flag_columns in Hcf.
  repeat (apply elem_of_cons in Hcf as [-> | Hcf]; [done|]).
  by apply elem_of_nil in Hcf.
Qed.

Lemma boolean_max sel (col : RolePermission → Z) m :
  (∀ p, sel p → col p = 0 ∨ col p = 1) → max_over sel col m →
  (m = 0 ∨ m = 1) ∧ (m = 1 ↔ ∃ p, sel p ∧ col p = 1).
Proof.
  intros Hbool [(p & Hp & Hm) Hub]. split.
  - rewrite <- Hm. by apply Hbool.
  - split; [intros ->; eauto|]. intros (p' & Hp' & H1).
    specialize (Hub p' Hp'). destruct (Hbool p Hp); lia.
Qed.

(** X10: when every grant carries flags 0 or 1, each field of a returned
    record is the "or" of that flag over the selected grants: it is 0 or 1,
    and it is 1 exactly when one selected grant sets the flag. *)
Theorem boolean_grants_are_ored d resource user role :
  Forall boolean_grant (permissions d) →
  (∀ res cf, get_user_permissions_on_resource d resource user = Some res →
     cf ∈ flag_columns →
     ∃ m, cf.2 res = Some m ∧ (m = 0 ∨ m = 1)
          ∧ (m = 1 ↔ ∃ p, user_selected d resource user p ∧ cf.1 p = 1))
  ∧ (∀ res cf, get_role_permissions_on_resource d resource role = Some res →
       cf ∈ flag_columns →
       ∃ m, cf.2 res = Some m ∧ (m = 0 ∨ m = 1)
            ∧ (m = 1 ↔ ∃ p, role_selected d resource role p ∧ cf.1 p = 1)).
Proof.
  intros Hbool. rewrite Forall_forall in Hbool.
  assert (Hcol : ∀ p cf, p ∈ permissions d → cf ∈ flag_columns →
            cf.1 p = 0 ∨ cf.1 p = 1).
  { intros p cf Hp Hcf. specialize (Hbool p Hp). unfold boolean_grant in Hbool.
    rewrite Forall_forall in Hbool. by apply Hbool. }
  split.
  - intros res cf Hres Hcf.
    destruct (query_outcome _ _ (user_rows_selected d resource user)) as (_ & Hsome & _).
    destruct (flags_max_over_columns _ _ cf (Hsome res Hres) Hcf) as (m & Hm & Hmax).
    exists m. split; [done|]. apply boolean_max; [|done].
    intros p (Hp & _). by apply Hcol.
  - intros res cf Hres Hcf.
    destruct (query_outcome _ _ (elem_of_role_rows d resource role)) as (_ & Hsome & _).
    destruct (flags_max_over_columns _ _ cf (Hsome res Hres) Hcf) as (m & Hm & Hmax).
    exists m. split; [done|]. apply boolean_max; [|done].
    intros p (Hp & _). by apply Hcol.
Qed.

(** X11: permissions are inherited upwards.  On a consistent store over an
    acyclic graph, with sound parent and grant rows, a role [A] that is an
    ancestor of [R] gets from the role query at least what [R] gets, and so
    does every user who holds [A]. *)
Theorem ancestors_inherit_permissions d resource user A R :
  all_consistent d →
  acyclic d →
  parents_in_roles d →
  grants_in_roles d →
  R ∈ role_ids d →
  is_ancestor_of d A R = true →
  perm_le (get_role_permissions_on_resource d resource R)
          (get_role_permissions_on_resource d resource A)
  ∧ (A ∈ accessor_roles d user →
       perm_le (get_role_permissions_on_resource d resource R)
               (get_user_permissions_on_resource d resource user)).
Proof.
  intros Hcons%all_consistent_forall Hacy Hfk Hgr HR HAR.
  pose proof (consistent_closure d Hcons Hacy Hfk) as Hclo.
  apply is_ancestor_of_stored, (Hclo R HR) in HAR.
  unfold grants_in_roles in Hgr. rewrite Forall_forall in Hgr.
  assert (Hup : ∀ p, role_selected d resource R p → role_selected d resource A p).
  { intros p (Hp & Hres & Hanc). split; [done|]. split; [done|].
    pose proof (Hgr p Hp) as Hg. apply (Hclo _ Hg). apply (Hclo _ Hg) in Hanc.
    by etrans. }
  split.
  - apply outcome_le. intros p Hp%elem_of_role_rows. by apply elem_of_role_rows, Hup.
  - intros Hheld. apply outcome_le. intros p Hp%elem_of_role_rows.
    apply user_rows_selected, user_selected_role_selected. eauto.
Qed.

(** X12: the permission queries and the ancestor test read the stored
    ancestor rows only.  Inside a batch, after the parent edges changed and
    the rebuild of a role was asked for, they still answer as before: the
    answers are stale until the flush. *)
Theorem queries_are_stale_inside_batch (fuel : nat) (R : Z) (s : State)
    (q : gset Z) (edges : gset (Z * Z)) :
  getattr_flag (tls s) = true →
  roles_needing_rebuilding (tls s) = Some q →
  (0 < fuel)%nat →
  ∃ s', rebuild_role_ancestor_list fuel R (with_db s (set_parents (db s) edges)) = Ok s'
      ∧ parents (db s') = edges
      ∧ ancestors (db s') = ancestors (db s)
      ∧ (∀ resource user,
           get_user_permissions_on_resource (db s') resource user
           = get_user_permissions_on_resource (db s) resource user)
      ∧ (∀ resource role,
           get_role_permissions_on_resource (db s') resource role
           = get_role_permissions_on_resource (db s) resource role)
      ∧ (∀ a b, is_ancestor_of (db s') a b = is_ancestor_of (db s) a b)
      ∧ (∀ uid, visible_roles (db s') uid = visible_roles (db s) uid).
Proof.
  intros Hf Hq Hfuel.
  rewrite (rebuild_deferred fuel R (with_db s (set_parents (db s) edges)) q) by done.
  eexists. split; [reflexivity|]. repeat split.
Qed.

(** ** Saving a role *)

Lemma save_fresh fuel r s :
  getattr_flag (tls s) = false →
  parents_in_roles (db s) →
  role_id r ∉ role_ids (db s) →
  stored_ancestors (db s) (role_id r) = ∅ →
  (0 < fuel)%nat →
  ∃ s', save fuel r s = Ok s'
      ∧ db s' = updated (insert_or_update r (db s)) (role_id r)
      ∧ roles (db s') = roles (db s) ++ [r]
      ∧ parents (db s') = parents (db s)
      ∧ ancestors (db s') = ancestors (db s) ∪ {[ (role_id r, role_id r) ]}
      ∧ stored_ancestors (db s') (role_id r) = {[ role_id r ]}
      ∧ log s' = log s ++ [Recomputed (role_id r); Stored (role_id r)]
      ∧ (all_consistent (db s) → all_consistent (db s')).
Proof.
  intros Hf Hfk Hnew Hnone Hfuel.
  set (i := role_id r) in *.
  set (d1 := insert_or_update r (db s)).
  set (s1 := with_db s d1).
  assert (Hroles1 : roles d1 = roles (db s) ++ [r]).
  { unfold d1, insert_or_update. simpl. by rewrite decide_False. }
  assert (Hids1 : role_ids d1 = role_ids (db s) ++ [i]).
  { unfold role_ids. by rewrite Hroles1, fmap_app. }
  assert (Hnoedge : ∀ x y, (x, y) ∈ parents (db s) → x ≠ i ∧ y ≠ i).
  { intros x y Hxy. destruct (Hfk _ Hxy) as [Hx Hy]. simpl in *.
    split; intros ->; contradiction. }
  assert (Hactual : actual_ancestors d1 i = {[ i ]}).
  { apply set_eq; intros a. rewrite elem_of_actual, elem_of_singleton. split.
    - intros [-> | (p & Hp & _)]; [done|]. by destruct (Hnoedge _ _ Hp).
    - intros ->. by left. }
  assert (Hstored : stored_ancestors d1 i = ∅) by exact Hnone.
  assert (Hchildren : children d1 i = []).
  { apply elem_of_nil_inv. intros c [_ Hc]%elem_of_children.
    by destruct (Hnoedge _ _ Hc). }
  assert (Hanc : ancestors (updated d1 i) = ancestors (db s) ∪ {[ (i, i) ]}).
  { apply set_eq; intros [x a]. rewrite elem_of_update, Hactual.
    change (ancestors d1) with (ancestors (db s)).
    case_decide as Hx.
    - subst x. rewrite elem_of_union, !elem_of_singleton.
      split; [intros ->; by right|].
      intros [Hin | [= ->]]; [|done].
      apply elem_of_stored in Hin. rewrite Hnone in Hin. by apply not_elem_of_empty in Hin.
    - rewrite elem_of_union, elem_of_singleton.
      split; [by left|]. intros [Hin | [= -> ->]]; done. }
  destruct fuel as [|n]; [lia|].
  exists (after_store i s1). unfold save. fold i d1 s1.
  split; [|split; [reflexivity|split; [exact Hroles1|split; [reflexivity|split; [exact Hanc|split; [|split]]]]]].
  - rewrite rebuild_unfold by done.
    rewrite decide_True.
    + change (db s1) with d1. by rewrite Hchildren.
    + change (db s1) with d1. rewrite Hactual, Hstored. set_solver.
  - change (stored_ancestors (updated d1 i) i = {[i]}).
    by rewrite stored_update_same.
  - simpl. by rewrite <- app_assoc.
  - intros Hcons%all_consistent_forall. apply all_consistent_forall.
    intros x Hx. change (db (after_store i s1)) with (updated d1 i) in *.
    change (role_ids (updated d1 i)) with (role_ids d1) in Hx.
    rewrite Hids1 in Hx. apply elem_of_app in Hx as [Hx | ->%list_elem_of_singleton].
    + apply update_consistent_other.
      * intros ->. contradiction.
      * intros Hp. by destruct (Hnoedge _ _ Hp).
      * by apply Hcons.
    + apply update_consistent_self.
Qed.

(** X13: saving a new role outside a batch (its id is not in the role table,
    no ancestor row starts at it, the parent rows are sound) appends the row,
    stores the role as its own single ancestor, touches no other row, and
    keeps a consistent store consistent. *)
Theorem save_new_role fuel r s :
  getattr_flag (tls s) = false →
  parents_in_roles (db s) →
  role_id r ∉ role_ids (db s) →
  stored_ancestors (db s) (role_id r) = ∅ →
  (0 < fuel)%nat →
  ∃ s', save fuel r s = Ok s'
      ∧ roles (db s') = roles (db s) ++ [r]
      ∧ parents (db s') = parents (db s)
      ∧ ancestors (db s') = ancestors (db s) ∪ {[ (role_id r, role_id r) ]}
      ∧ stored_ancestors (db s') (role_id r) = {[ role_id r ]}
      ∧ log s' = log s ++ [Recomputed (role_id r); Stored (role_id r)]
      ∧ (all_consistent (db s) → all_consistent (db s')).
Proof.
  intros Hf Hfk Hnew Hnone Hfuel.
  destruct (save_fresh fuel r s Hf Hfk Hnew Hnone Hfuel)
    as (s' & Hsave & _ & Hrest).
  exists s'. split; [exact Hsave | exact Hrest].
Qed.

(** ** Singleton roles *)






(** ** Checks of the further properties on the sample stores *)

Lemma rebuild_repairs_whole_store_witness :
  ∃ s', rebuild_role_ancestor_list 4 2 s_chain = Ok s'
      ∧ all_consistent (db s')
      ∧ ∀ r, r ∈ role_ids (db s') → closure_at (db s') r.
Proof.
  apply (rebuild_repairs_whole_store 4 2 s_chain).
  - reflexivity.
  - apply (ranked_acyclic _ rank_down). by_eval.
  - by_eval.
  - by_eval.
  - simpl. lia.
Defined.

Lemma rebuild_touches_only_descendants_witness :
  tls s_chain_rebuilt = tls s_chain
  ∧ roles (db s_chain_rebuilt) = roles (db s_chain)
  ∧ parents (db s_chain_rebuilt) = parents (db s_chain)
  ∧ members (db s_chain_rebuilt) = members (db s_chain)
  ∧ permissions (db s_chain_rebuilt) = permissions (db s_chain)
  ∧ ∀ x, ¬ rtc (parent_of (db s_chain)) x 2 →
         stored_ancestors (db s_chain_rebuilt) x = stored_ancestors (db s_chain) x.
Proof.
  apply (rebuild_touches_only_descendants 4 2 s_chain s_chain_rebuilt).
  - reflexivity.
  - vm_compute. reflexivity.
Defined.

Lemma rebuild_all_in_batch_repairs_witness :
  ∃ s', batch_role_ancestor_rebuilding 4
          (run_block (for_each (rebuild_role_ancestor_list 4) (role_ids (db s_chain))))
          s_chain
        = (s', None)
      ∧ roles (db s') = roles (db s_chain)
      ∧ parents (db s') = parents (db s_chain)
      ∧ roles_needing_rebuilding (tls s') = None
      ∧ all_consistent (db s')
      ∧ ∀ r, r ∈ role_ids (db s_chain) → closure_at (db s') r.
Proof.
  apply (rebuild_all_in_batch_repairs 4 s_chain).
  - reflexivity.
  - apply (ranked_acyclic _ rank_down). by_eval.
  - by_eval.
  - simpl. lia.
Defined.

Lemma deferred_rebuilds_coalesce_witness :
  ∃ s', for_each (rebuild_role_ancestor_list 1) [2; 2; 9] s_batch = Ok s'
      ∧ db s' = db s_batch
      ∧ roles_needing_rebuilding (tls s') = Some ({[3]} ∪ list_to_set [2; 2; 9])
      ∧ log s' = log s_batch ++ (Deferred <$> [2; 2; 9])
      ∧ NoDup (refetch (db s') ({[3]} ∪ list_to_set [2; 2; 9]))
      ∧ ∀ r, r ∈ refetch (db s') ({[3]} ∪ list_to_set [2; 2; 9]) ↔
             r ∈ role_ids (db s_batch) ∧ (r ∈ ({[3]} : gset Z) ∨ r ∈ [2; 2; 9]).
Proof.
  apply (deferred_rebuilds_coalesce 1 [2; 2; 9] s_batch {[3]}).
  - reflexivity.
  - reflexivity.
  - lia.
  - by_eval.
Defined.

Lemma flush_order_is_irrelevant_witness :
  ∃ s1 s2,
    batch_exit 4 false s_queued = (s1, None)
    ∧ batch_exit 4 false (with_db s_queued (with_roles (db s_queued) roles_reordered))
      = (s2, None)
    ∧ ancestors (db s1) = ancestors (db s2).
Proof.
  apply (flush_order_is_irrelevant 4 s_queued {[2]} roles_reordered).
  - reflexivity.
  - exact (Permutation_cons_append [plain_role 1; plain_role 2] (plain_role 3)).
  - apply (ranked_acyclic _ rank_down). by_eval.
  - by_eval.
  - by_eval.
  - simpl. lia.
Defined.

Lemma is_ancestor_of_is_reachability_witness :
  (∀ a b, b ∈ role_ids d_org →
     is_ancestor_of d_org a b = true ↔ rtc (parent_of d_org) b a)
  ∧ (∀ b, b ∈ role_ids d_org → is_ancestor_of d_org b b = true)
  ∧ (∀ a b c, c ∈ role_ids d_org →
       is_ancestor_of d_org a b = true → is_ancestor_of d_org b c = true →
       is_ancestor_of d_org a c = true)
  ∧ (∀ a b, a ∈ role_ids d_org → b ∈ role_ids d_org →
       is_ancestor_of d_org a b = true → is_ancestor_of d_org b a = true → a = b).
Proof.
  apply (is_ancestor_of_is_reachability d_org).
  - by_eval.
  - apply (ranked_acyclic _ rank_down). by_eval.
  - by_eval.
Defined.

Lemma boolean_grants_are_ored_witness :
  (∀ res cf, get_user_permissions_on_resource d_org resource_x alice = Some res →
     cf ∈ flag_columns →
     ∃ m, cf.2 res = Some m ∧ (m = 0 ∨ m = 1)
          ∧ (m = 1 ↔ ∃ p, user_selected d_org resource_x alice p ∧ cf.1 p = 1))
  ∧ (∀ res cf, get_role_permissions_on_resource d_org resource_x 3 = Some res →
       cf ∈ flag_columns →
       ∃ m, cf.2 res = Some m ∧ (m = 0 ∨ m = 1)
            ∧ (m = 1 ↔ ∃ p, role_selected d_org resource_x 3 p ∧ cf.1 p = 1)).
Proof.
  apply (boolean_grants_are_ored d_org resource_x alice 3). by_eval.
Defined.

Lemma ancestors_inherit_permissions_witness :
  perm_le (get_role_permissions_on_resource d_org resource_x 3)
          (get_role_permissions_on_resource d_org resource_x 1)
  ∧ (1 ∈ accessor_roles d_org alice →
       perm_le (get_role_permissions_on_resource d_org resource_x 3)
               (get_user_permissions_on_resource d_org resource_x alice)).
Proof.
  apply (ancestors_inherit_permissions d_org resource_x alice 1 3).
  - by_eval.
  - apply (ranked_acyclic _ rank_down). by_eval.
  - by_eval.
  - by_eval.
  - by_eval.
  - reflexivity.
Defined.

Lemma queries_are_stale_inside_batch_witness :
  ∃ s', rebuild_role_ancestor_list 1 3 (with_db s_org_batch (set_parents (db s_org_batch) ∅))
        = Ok s'
      ∧ parents (db s') = ∅
      ∧ ancestors (db s') = ancestors (db s_org_batch)
      ∧ (∀ resource user,
           get_user_permissions_on_resource (db s') resource user
           = get_user_permissions_on_resource (db s_org_batch) resource user)
      ∧ (∀ resource role,
           get_role_permissions_on_resource (db s') resource role
           = get_role_permissions_on_resource (db s_org_batch) resource role)
      ∧ (∀ a b, is_ancestor_of (db s') a b = is_ancestor_of (db s_org_batch) a b)
      ∧ (∀ uid, visible_roles (db s') uid = visible_roles (db s_org_batch) uid).
Proof.
  apply (queries_are_stale_inside_batch 1 3 s_org_batch ∅ ∅).
  - reflexivity.
  - reflexivity.
  - lia.
Defined.

Lemma save_new_role_witness :
  ∃ s', save 1 (plain_role 9) s_org = Ok s'
      ∧ roles (db s') = roles (db s_org) ++ [plain_role 9]
      ∧ parents (db s') = parents (db s_org)
      ∧ ancestors (db s') = ancestors (db s_org) ∪ {[ (9, 9) ]}
      ∧ stored_ancestors (db s') 9 = {[ 9 ]}
      ∧ log s' = log s_org ++ [Recomputed 9; Stored 9]
      ∧ (all_consistent (db s_org) → all_consistent (db s')).
Proof.
  apply (save_new_role 1 (plain_role 9) s_org).
  - reflexivity.
  - by_eval.
  - by_eval.
  - vm_compute. reflexivity.
  - lia.
Defined.


Lemma refetch_fresh d (i : Z) :
  i ∉ role_ids d → refetch (with_roles d (roles d ++ [mkRole i None None])) (∅ ∪ {[ i ]}) = [i].
Proof.
  intros Hnew. unfold refetch, role_ids. simpl. rewrite fmap_app, filter_app. simpl.
  rewrite filter_cons, decide_True by set_solver.
  replace (filter (λ r, r ∈ (∅ ∪ {[i]} : gset Z)) (role_id <$> roles d)) with (@nil Z); [done|].
  symmetry. apply elem_of_nil_inv. intros x [Hx Hin]%list_elem_of_filter.
  apply Hnew. unfold role_ids. set_solver.
Qed.

(** X15: creating a role inside a batch ends with the same store as creating
    it directly: the scope queues the new role, the flush stores it as its
    own ancestor, and the queue is dropped. *)
Theorem save_inside_batch_equals_save fuel i s :
  getattr_flag (tls s) = false →
  parents_in_roles (db s) →
  i ∉ role_ids (db s) →
  stored_ancestors (db s) i = ∅ →
  (0 < fuel)%nat →
  ∃ sb sd,
    batch_role_ancestor_rebuilding fuel (run_block (save fuel (mkRole i None None))) s
    = (sb, None)
    ∧ save fuel (mkRole i None None) s = Ok sd
    ∧ db sb = db sd
    ∧ roles_needing_rebuilding (tls sb) = None
    ∧ stored_ancestors (db sb) i = {[ i ]}.
Proof.
  intros Hf Hfk Hnew Hnone Hfuel.
  set (r := mkRole i None None).
  destruct (save_fresh fuel r s Hf Hfk Hnew Hnone Hfuel)
    as (sd & Hsd & Hdbd & _ & _ & _ & Hself & _).
  set (s0 := with_tls s (mkTLS (Some true) (Some ∅))).
  set (d1 := insert_or_update r (db s)).
  assert (Hd1 : d1 = with_roles (db s) (roles (db s) ++ [r])).
  { unfold d1, insert_or_update, with_roles. by rewrite decide_False. }
  set (s1 := emit (Deferred i)
               (with_tls (with_db s0 d1) (mkTLS (Some true) (Some (∅ ∪ {[ i ]}))))).
  assert (Hbody : save fuel r s0 = Ok s1).
  { exact (rebuild_deferred fuel i (with_db s0 d1) ∅ eq_refl eq_refl Hfuel). }
  set (su := mkState (mkTLS (Some false) (Some (∅ ∪ {[ i ]}))) (db s) (log s1)).
  destruct (save_fresh fuel r su) as (sf & Hsf & Hdbf & _); [done..|].
  exists (with_tls sf (mkTLS (batch_role_rebuilding (tls sf)) None)), sd.
  split; [|split; [done|split; [|split; [done|]]]].
  - unfold batch_role_ancestor_rebuilding, batch_enter. rewrite Hf. fold s0.
    unfold run_block. rewrite Hbody. unfold batch_exit.
    change (roles_needing_rebuilding (tls (flag_restored false s1)))
      with (Some (∅ ∪ {[ i ]} : gset Z)).
    change (db (flag_restored false s1)) with d1.
    assert (Hre : refetch d1 (∅ ∪ {[ i ]}) = [i]).
    { rewrite Hd1. by apply refetch_fresh. }
    cbv beta iota. rewrite Hre. unfold atomic.
    change (for_each (rebuild_role_ancestor_list fuel) [i] (flag_restored false s1))
      with (bind (save fuel r su) Ok).
    rewrite Hsf. done.
  - simpl. by rewrite Hdbf, Hdbd.
  - simpl. rewrite Hdbf. change (db su) with (db s). by rewrite <- Hdbd.
Qed.

Lemma insert_or_update_ids r d :
  role_id r ∈ role_ids d → role_ids (insert_or_update r d) = role_ids d.
Proof.
  intros Hin. unfold insert_or_update, role_ids. simpl. rewrite decide_True by done.
  rewrite <- list_fmap_compose. apply list_fmap_ext. intros _ x _. simpl.
  by case_decide.
Qed.

(** X16: saving again a role that is in the table and whose stored ancestors
    are consistent replaces its row and nothing else: the ids, the edges and
    the ancestor table stay as they were, and no child is rebuilt. *)
Theorem save_existing_consistent fuel r s :
  getattr_flag (tls s) = false →
  role_id r ∈ role_ids (db s) →
  consistent_at (db s) (role_id r) →
  (0 < fuel)%nat →
  ∃ s', save fuel r s = Ok s'
      ∧ r ∈ roles (db s')
      ∧ role_ids (db s') = role_ids (db s)
      ∧ parents (db s') = parents (db s)
      ∧ ancestors (db s') = ancestors (db s)
      ∧ permissions (db s') = permissions (db s)
      ∧ log s' = log s ++ [Recomputed (role_id r)].
Proof.
  intros Hf Hin Hcons Hfuel. destruct fuel as [|n]; [lia|].
  exists (emit (Recomputed (role_id r)) (with_db s (insert_or_update r (db s)))).
  split; [|split; [|split; [by apply insert_or_update_ids|done]]].
  - unfold save. rewrite rebuild_unfold by done.
    rewrite decide_False; [done|]. intros Hne. apply Hne. symmetry. exact Hcons.
  - simpl. rewrite decide_True by done.
    unfold role_ids in Hin. apply list_elem_of_fmap in Hin as (x & Hx & Hxin).
    apply list_elem_of_fmap. exists x. split; [|done]. by rewrite decide_True.
Qed.

Lemma save_inside_batch_equals_save_witness :
  ∃ sb sd,
    batch_role_ancestor_rebuilding 1 (run_block (save 1 (mkRole 9 None None))) s_org
    = (sb, None)
    ∧ save 1 (mkRole 9 None None) s_org = Ok sd
    ∧ db sb = db sd
    ∧ roles_needing_rebuilding (tls sb) = None
    ∧ stored_ancestors (db sb) 9 = {[ 9 ]}.
Proof.
  apply (save_inside_batch_equals_save 1 9 s_org).
  - reflexivity.
  - by_eval.
  - by_eval.
  - vm_compute. reflexivity.
  - lia.
Defined.

Lemma save_existing_consistent_witness :
  ∃ s', save 1 (mkRole 3 (Some 7) (Some 1)) s_org = Ok s'
      ∧ mkRole 3 (Some 7) (Some 1) ∈ roles (db s')
      ∧ role_ids (db s') = role_ids (db s_org)
      ∧ parents (db s') = parents (db s_org)
      ∧ ancestors (db s') = ancestors (db s_org)
      ∧ permissions (db s') = permissions (db s_org)
      ∧ log s' = log s_org ++ [Recomputed 3].
Proof.
  apply (save_existing_consistent 1 (mkRole 3 (Some 7) (Some 1)) s_org).
  - reflexivity.
  - by_eval.
  - by_eval.
  - lia.
Defined.

End Rbac.
